(** * The matrix encoder of the Patient Belongings Inventory preview

    A shallow embedding of the client-side QR generator found in
    [src/PatientBelongingsInventory-preview.jsx] (the [QRCode] closure,
    lines 4-137): version selection, function-pattern placement, bit-stream
    construction, zigzag data placement and masking.

    JavaScript numbers are modelled by [Z]; the matrix, an array of arrays
    whose entries are [null], [true] or [false], by a list of lists of
    [option bool].  The matrix is mutated in place by the source: here it is
    threaded explicitly, together with a ghost record of every assignment the
    program performs on it.  Loops whose bound is not a constant range take a
    fuel argument and report [OutOfFuel] when it is exhausted. *)

From Stdlib Require Import ZArith List Bool Lia QArith Qminmax.
From Stdlib.Strings Require Import Byte.
From stdpp Require Import base tactics option list list_numbers.

Local Open Scope Z_scope.

(** ** Outcomes of a computation *)

(** [TypeError]: the source indexes into [undefined] (a missing row).
    [OffGrid]: the source would assign to a column index that the row does
    not have, which in JavaScript grows the row or adds a property; the
    model stops there.  [OutOfFuel]: a loop did not finish within its
    fuel. *)
Inductive error : Type := TypeError | OffGrid | OutOfFuel.

Inductive result (A : Type) : Type :=
| Ok (a : A)
| Err (e : error).
Arguments Ok {A} a.
Arguments Err {A} e.

Definition bind {A B : Type} (x : result A) (f : A -> result B) : result B :=
  match x with
  | Ok a => f a
  | Err e => Err e
  end.

Notation "'do' x <- e1 ; e2" := (bind e1 (fun x => e2))
  (at level 10, x pattern, e1 at level 100, e2 at level 200).

(** [for (const x of xs) body] with the state threaded through. *)
Fixpoint forEach {A S : Type} (xs : list A) (body : A -> S -> result S)
    (s : S) : result S :=
  match xs with
  | [] => Ok s
  | x :: xs' => do s' <- body x s; forEach xs' body s'
  end.

(** ** Arrays *)

Definition len {A : Type} (l : list A) : Z := Z.of_nat (length l).

(** [l[i]]: [None] stands for [undefined]. *)
Definition at_index {A : Type} (l : list A) (i : Z) : option A :=
  if i <? 0 then None else l !! Z.to_nat i.

(** [for (let i = hi; i >= 0; i--)]: the indices hi, hi-1, ..., 0. *)
Definition countdown (hi : Z) : list Z := reverse (seqZ 0 (hi + 1)).

(** ** The matrix and its ghost write record *)

Notation cell := (option bool).
Notation matrix := (list (list cell)).

(** One assignment [matrix[w_row][w_col] = w_new]; [w_old] is what the
    module held just before. *)
Record write : Type := Write {
  w_row : Z;
  w_col : Z;
  w_old : cell;
  w_new : bool
}.

(** [log] holds the assignments performed so far, the latest first. *)
Record store : Type := Store {
  grid : matrix;
  log : list write
}.

Definition getCell (m : matrix) (r c : Z) : option cell :=
  match at_index m r with
  | None => None
  | Some rowv => at_index rowv c
  end.

(** [matrix[r][c] = b]. *)
Definition setCell (st : store) (r c : Z) (b : bool) : result store :=
  match at_index (grid st) r with
  | None => Err TypeError
  | Some rowv =>
      match at_index rowv c with
      | None => Err OffGrid
      | Some old =>
          Ok {| grid := <[Z.to_nat r := <[Z.to_nat c := Some b]> rowv]> (grid st);
                log := Write r c old b :: log st |}
      end
  end.

(** ** generateQR and its helpers

    Line numbers are those of the source file. *)

Inductive ErrorCorrectionLevel : Type := EclL | EclM | EclQ | EclH.

(** line 6 *)
Definition EC_LEVELS (ecl : ErrorCorrectionLevel) : Z :=
  match ecl with
  | EclL => 1
  | EclM => 0
  | EclQ => 3
  | EclH => 2
  end.

(** line 23 *)
Definition caps : list Z :=
  [17; 32; 53; 78; 106; 134; 154; 192; 230; 271;
   321; 367; 425; 458; 520; 586; 644; 718; 792; 858].

(** [caps[i] >= len]; a comparison with [undefined] is false. *)
Definition caps_ge (i len : Z) : bool :=
  match at_index caps i with
  | Some c => c >=? len
  | None => false
  end.

(** lines 24-27: [n] iterations of the scan remain, starting at [v]. *)
Fixpoint getVersion_from (n : nat) (v len : Z) : Z :=
  match n with
  | O => 20
  | S n' => if caps_ge (v - 1) len then v else getVersion_from n' (v + 1) len
  end.

(** lines 22-28 *)
Definition getVersion (len : Z) (ecl : ErrorCorrectionLevel) : Z :=
  getVersion_from 20 1 len.

(** lines 30-32 *)
Definition createMatrix (size : Z) : matrix :=
  replicate (Z.to_nat size) (replicate (Z.to_nat size) None).

(** lines 65-67 *)
Definition finderDark (r c : Z) : bool :=
  ((0 <=? r) && (r <=? 6) && ((c =? 0) || (c =? 6))) ||
  ((0 <=? c) && (c <=? 6) && ((r =? 0) || (r =? 6))) ||
  ((2 <=? r) && (r <=? 4) && (2 <=? c) && (c <=? 4)).

(** lines 60-70 *)
Definition addFinderPattern (row col : Z) (st : store) : result store :=
  forEach (seqZ (-1) 9) (fun r st =>
    forEach (seqZ (-1) 9) (fun c st =>
      let rr := row + r in
      let cc := col + c in
      if (rr <? 0) || (cc <? 0) || (rr >=? len (grid st)) || (cc >=? len (grid st))
      then Ok st
      else setCell st rr cc (finderDark r c)) st) st.

(** line 75 *)
Definition alignmentDark (r c : Z) : bool :=
  (Z.abs r =? 2) || (Z.abs c =? 2) || ((r =? 0) && (c =? 0)).

(** lines 72-78 *)
Definition addAlignmentPattern (row col : Z) (st : store) : result store :=
  forEach (seqZ (-2) 5) (fun r st =>
    forEach (seqZ (-2) 5) (fun c st =>
      setCell st (row + r) (col + c) (alignmentDark r c)) st) st.

(** [Math.ceil(a / b)] for [b > 0].  The source divides in floating point
    ([dist / intervals / 2]); for the operands that occur the quotient is
    either an integer or at least 1/6 away from one, so rounding does not
    change the ceiling. *)
Definition ceil_div (a b : Z) : Z := - ((- a) / b).

(** line 86: [for (...; pos.length <= intervals; p -= step) pos.unshift(p)] *)
Fixpoint alignLoop (fuel : nat) (intervals step p : Z) (pos : list Z)
    : result (list Z) :=
  match fuel with
  | O => Err OutOfFuel
  | S f =>
      if len pos <=? intervals
      then alignLoop f intervals step (p - step) (p :: pos)
      else Ok pos
  end.

(** lines 80-88 *)
Definition getAlignmentPos (fuel : nat) (version : Z) : result (list Z) :=
  if version =? 1 then Ok []
  else
    let intervals := version / 7 + 1 in
    let dist := 4 * version + 4 in
    let step := ceil_div dist (intervals * 2) * 2 in
    alignLoop fuel intervals step (dist + 6) [6].

(** lines 130-134 *)
Definition getCapacity (version : Z) : Z :=
  let total := (version * 4 + 17) ^ 2 in
  let func := 192
              + (if version >? 1 then (version / 7 + 1) ^ 2 * 25 - 10 else 0)
              + (if version >? 6 then 67 else 0) in
  (total - func) / 8
  - (if version <? 2 then 13 else if version <? 7 then 22 else 36).

(** [(x >> i) & 1] *)
Definition bitAt (x i : Z) : Z := Z.land (Z.shiftr x i) 1.

(** [for (let i = hi; i >= 0; i--) bits.push((x >> i) & 1)] *)
Definition pushBits (x hi : Z) (bits : list Z) : list Z :=
  foldl (fun bits i => bits ++ [bitAt x i]) bits (countdown hi).

Definition byteVal (b : byte) : Z := Z.of_N (Byte.to_N b).

(** line 104: [while (bits.length % 8 !== 0) bits.push(0)] *)
Fixpoint terminatorLoop (fuel : nat) (bits : list Z) : result (list Z) :=
  match fuel with
  | O => Err OutOfFuel
  | S f =>
      if Z.rem (len bits) 8 =? 0 then Ok bits
      else terminatorLoop f (bits ++ [0])
  end.

(** line 109: the inner loop, left as soon as the capacity is reached. *)
Fixpoint padByte (idx : list Z) (pad capacity : Z) (bits : list Z) : list Z :=
  match idx with
  | [] => bits
  | i :: idx' =>
      if len bits <? capacity
      then padByte idx' pad capacity (bits ++ [bitAt pad i])
      else bits
  end.

(** lines 107-111; 236 is 0xEC and 17 is 0x11. *)
Fixpoint padLoop (fuel : nat) (pad capacity : Z) (bits : list Z)
    : result (list Z) :=
  match fuel with
  | O => Err OutOfFuel
  | S f =>
      if len bits <? capacity
      then padLoop f (if pad =? 236 then 17 else 236) capacity
                   (padByte (countdown 7) pad capacity bits)
      else Ok bits
  end.

(** lines 93-111: the bit stream of fillData. *)
Definition buildBits (fuel : nat) (data : list byte) (version : Z)
    : result (list Z) :=
  let bits := [0; 1; 0; 0] in
  let countBits := if version <? 10 then 8 else 16 in
  let bits := pushBits (len data) (countBits - 1) bits in
  let bits := foldl (fun bits b => pushBits (byteVal b) 7 bits) bits data in
  do bits <- terminatorLoop fuel bits;
  let capacity := getCapacity version * 8 in
  padLoop fuel 236 capacity bits.

(** [!x] where [x] is what [matrix[r][c]] evaluates to ([None] standing for
    [undefined], [Some None] for [null]): only [true] is truthy. *)
Definition jsNot (x : option cell) : bool :=
  match x with
  | Some (Some true) => false
  | _ => true
  end.

(** lines 118-123: one visit of the module at [(row, cc)].  Line 120
    assigns the next bit of the stream, or light once the stream is used
    up; line 122 assigns a second time, the negation of what the module
    holds by then, when row + column is even. *)
Definition placeCell (bits : list Z) (row cc : Z) (s : store * Z)
    : result (store * Z) :=
  let '(st, i) := s in
  match at_index (grid st) row with
  | None => Err TypeError
  | Some rowv =>
      match at_index rowv cc with
      | Some None =>
          let '(b, i') :=
            if i <? len bits
            then (match at_index bits i with
                  | Some 1 => true
                  | _ => false
                  end, i + 1)
            else (false, i) in
          do st1 <- setCell st row cc b;
          do st2 <- (if Z.rem (row + cc) 2 =? 0
                     then setCell st1 row cc (jsNot (getCell (grid st1) row cc))
                     else Ok st1);
          Ok (st2, i')
      | _ => Ok (st, i)
      end
  end.

(** lines 116-125 *)
Fixpoint rowLoop (fuel : nat) (bits : list Z) (size dir col row : Z)
    (s : store * Z) : result (store * Z) :=
  match fuel with
  | O => Err OutOfFuel
  | S f =>
      if (row >=? 0) && (row <? size)
      then
        do s' <- forEach (seqZ 0 2) (fun c s => placeCell bits row (col - c) s) s;
        rowLoop f bits size dir col (row + dir) s'
      else Ok s
  end.

(** lines 114-127 *)
Fixpoint colLoop (fuel : nat) (bits : list Z) (size dir col : Z)
    (s : store * Z) : result (store * Z) :=
  match fuel with
  | O => Err OutOfFuel
  | S f =>
      if col >? 0
      then
        let col := if col =? 6 then col - 1 else col in
        do s' <- rowLoop f bits size dir col
                   (if dir <? 0 then size - 1 else 0) s;
        colLoop f bits size (- dir) (col - 2) s'
      else Ok s
  end.

(** lines 113-127: the placement pass of fillData. *)
Definition placeData (fuel : nat) (bits : list Z) (st : store) : result store :=
  let size := len (grid st) in
  do s <- colLoop fuel bits size (-1) (size - 1) (st, 0);
  Ok (fst s).

(** lines 90-128 *)
Definition fillData (fuel : nat) (st : store) (data : list byte) (version : Z)
    : result store :=
  do bits <- buildBits fuel data version;
  placeData fuel bits st.

(** lines 41-43: [matrix[6][i] = matrix[i][6] = i % 2 === 0], the
    right-hand assignment first. *)
Definition addTiming (st : store) : result store :=
  forEach (seqZ 8 (len (grid st) - 8 - 8)) (fun i st =>
    let v := Z.rem i 2 =? 0 in
    do st' <- setCell st i 6 v;
    setCell st' 6 i v) st.

(** lines 45-54 *)
Definition addAlignment (fuel : nat) (version : Z) (st : store) : result store :=
  if version >? 1 then
    do pos <- getAlignmentPos fuel version;
    forEach pos (fun row st =>
      forEach pos (fun col st =>
        match getCell (grid st) row col with
        | Some None => addAlignmentPattern row col st
        | _ => Ok st
        end) st) st
  else Ok st.

(** lines 35-54: the function patterns. *)
Definition placePatterns (fuel : nat) (version : Z) (st : store) : result store :=
  let size := len (grid st) in
  do st <- addFinderPattern 0 0 st;
  do st <- addFinderPattern (size - 7) 0 st;
  do st <- addFinderPattern 0 (size - 7) st;
  do st <- addTiming st;
  addAlignment fuel version st.

(** lines 34-58.  The last parameter is the value of [EC_LEVELS[ecl]]. *)
Definition applyMask (fuel : nat) (st : store) (data : list byte)
    (version : Z) (ecl : Z) : result store :=
  do st <- placePatterns fuel version st;
  fillData fuel st data version.

(** lines 8-15.  [text] is given by its UTF-8 bytes, which is what
    [encodeData] computes with the platform's [TextEncoder]. *)
Definition generateQR (fuel : nat) (data : list byte)
    (ecl : ErrorCorrectionLevel) : result store :=
  let version := getVersion (len data) ecl in
  let size := version * 4 + 17 in
  let matrix := createMatrix size in
  applyMask fuel {| grid := matrix; log := [] |} data version (EC_LEVELS ecl).

(** The fuel that suffices for every payload: the longest loop is the
    padding loop, which runs at most once per byte of the largest capacity
    (1080 bytes, version 20). *)
Definition enoughFuel : nat := 1100.

(** ** Vocabulary of the specification *)

(** CapacityTable[v], for a version [v] in 1..20. *)
Definition CapacityTable (v : Z) : Z := default 0 (at_index caps (v - 1)).

(** The module is light or dark, not [null]. *)
Definition isSet (c : cell) : bool :=
  match c with
  | Some _ => true
  | None => false
  end.

(** Which modules are set, regardless of their colour. *)
Definition rowShape (rowv : list cell) : list bool := isSet <$> rowv.
Definition shape (m : matrix) : list (list bool) := rowShape <$> m.

(** No module is left unset. *)
Definition allSet (m : matrix) : bool := forallb (forallb isSet) m.

(** An N x N array. *)
Definition square (n : Z) (m : matrix) : Prop :=
  len m = n /\ Forall (fun rowv => len rowv = n) m.

(** The same, as a test. *)
Definition squareb (n : Z) (m : matrix) : bool :=
  (len m =? n) && forallb (fun rowv => len rowv =? n) m.

(** The write landed on a module that was still unset. *)
Definition unset_before (w : write) : Prop := w_old w = None.

(** Performing a recorded assignment again. *)
Definition applyWrite (w : write) (m : matrix) : matrix :=
  match at_index m (w_row w) with
  | Some rowv =>
      <[Z.to_nat (w_row w) := <[Z.to_nat (w_col w) := Some (w_new w)]> rowv]> m
  | None => m
  end.

(** Performing a record of assignments again, the earliest (last in the
    list) first. *)
Definition replay (ws : list write) (m : matrix) : matrix :=
  foldr applyWrite m ws.

(** [st'] is [st] after some more assignments: the dimensions are the same
    and every module that was set in [st] holds the same colour in [st']. *)
Record extends (st st' : store) : Prop := {
  ext_dims : length <$> grid st' = length <$> grid st;
  ext_keep : forall r c b,
      getCell (grid st) r c = Some (Some b) ->
      getCell (grid st') r c = Some (Some b)
}.

(** Two outcomes agree up to [R]: the same error, or related values. *)
Definition rel_result {A B : Type} (R : A -> B -> Prop)
    (x : result A) (y : result B) : Prop :=
  match x, y with
  | Ok a, Ok b => R a b
  | Err e1, Err e2 => e1 = e2
  | _, _ => False
  end.

(** The same modules are set in both stores. *)
Definition same_shape (st1 st2 : store) : Prop :=
  shape (grid st1) = shape (grid st2).

(** The same, for the state of the placement pass: the store and the index
    of the next bit. *)
Definition same_shape1 (s1 s2 : store * Z) : Prop :=
  same_shape (fst s1) (fst s2).

(** Bytes taken by the mode indicator and the count field, rounded up
    together with the data to a whole number of bytes. *)
Definition headerBytes (version : Z) : Z := if version <? 10 then 2 else 3.

(** The versions getVersion can return. *)
Definition versions : list Z := seqZ 1 20.

(** The store generateQR starts from: a fresh matrix, nothing written. *)
Definition initialStore (version : Z) : store :=
  {| grid := createMatrix (version * 4 + 17); log := [] |}.

(** The module at [(r, c)] is set, to [b]. *)
Definition cellIs (m : matrix) (r c : Z) (b : bool) : bool :=
  match getCell m r c with
  | Some (Some b') => eqb b' b
  | _ => false
  end.

(** After the function patterns of version [v]: no write hit a set module,
    the recorded writes account for the matrix, and the timing modules hold
    their alternating colours. *)
Definition patternsOk (v : Z) : bool :=
  match placePatterns enoughFuel v (initialStore v) with
  | Ok P =>
      forallb (fun w => negb (isSet (w_old w))) (log P)
      && bool_decide (grid P = replay (log P) (grid (initialStore v)))
      && forallb (fun i => cellIs (grid P) 6 i (Z.even i)
                           && cellIs (grid P) i 6 (Z.even i))
                 (seqZ 8 (v * 4 + 17 - 16))
  | Err _ => false
  end.

(** The placement pass over the patterns of version [v], run with an empty
    bit stream, ends with a full square matrix. *)
Definition dataPassOk (v : Z) : bool :=
  match placePatterns enoughFuel v (initialStore v) with
  | Ok P =>
      match placeData enoughFuel [] P with
      | Ok F => squareb (v * 4 + 17) (grid F) && allSet (grid F)
      | Err _ => false
      end
  | Err _ => false
  end.

(** The timing modules of an N x N matrix. *)
Definition timing (n : Z) (m : matrix) : Prop :=
  forall i, 8 <= i <= n - 9 ->
    getCell m 6 i = Some (Some (Z.even i)) /\
    getCell m i 6 = Some (Some (Z.even i)).

(** What an outcome shows to the caller of generateQR: the side of the
    grid, if there is one. *)
Definition gridSide (r : result store) : option Z :=
  match r with
  | Ok st => Some (len (grid st))
  | Err _ => None
  end.

(** A module as a digit: 1 dark, 0 light, 2 unset. *)
Definition paint (c : cell) : Z :=
  match c with
  | Some true => 1
  | Some false => 0
  | None => 2
  end.

(** The top-left 8 x 8 corner of the grid of an outcome. *)
Definition corner (r : result store) : list (list Z) :=
  match r with
  | Ok st => (fun rowv : list cell => paint <$> take 8 rowv) <$> take 8 (grid st)
  | Err _ => []
  end.

(** A payload one byte beyond the largest capacity. *)
Definition oversizedPayload : list byte := replicate 859 "A"%byte.

(** A payload that fills version 1 according to the capacity table. *)
Definition fullVersion1Payload : list byte := replicate 17 "A"%byte.

(** A payload of 200 bytes. *)
Definition payload200 : list byte := replicate 200 "A"%byte.

(** ** The data pass, the stream and the patterns in detail *)

(** Where a write landed. *)
Definition site (w : write) : Z * Z := (w_row w, w_col w).

(** [bits[j] === 1]; false past the end of the stream. *)
Definition bitIs1 (bits : list Z) (j : Z) : bool :=
  match at_index bits j with
  | Some 1 => true
  | _ => false
  end.

(** Mask pattern 0 (line 122): the value is flipped where row + column is
    even. *)
Definition masked (b : bool) (row cc : Z) : bool :=
  if Z.rem (row + cc) 2 =? 0 then negb b else b.

(** One visit of the data pass to an unset module: its row, its column and
    the bit line 120 assigns to it. *)
Notation visit := (Z * Z * bool)%type.

Definition visitSite (v : visit) : Z * Z := (fst (fst v), snd (fst v)).

Definition visitBit (v : visit) : bool := snd v.

(** The assignments of one visit, in the order they are performed: the
    assignment of line 120 to the unset module and, when row + column is
    even, the flip of line 122. *)
Definition visitWrites (v : visit) : list write :=
  let '(r, c, b) := v in
  Write r c None b
  :: (if Z.rem (r + c) 2 =? 0 then [Write r c (Some b) (negb b)] else []).

(** What a sequence of visits adds to the record, the latest assignment
    first. *)
Definition visitLog (visits : list visit) : list write :=
  reverse (flat_map visitWrites visits).

(** The placement pass went from [s] to [s'] (a store and the index of the
    next bit) by a sequence of visits to unset modules: the record grew by
    the assignments of these visits and nothing else, the visits took the
    bits of the stream from index [snd s] on, and the modules visited hold
    these bits, masked, in [s']. *)
Definition placed (bits : list Z) (s s' : store * Z) : Prop :=
  extends (fst s) (fst s') /\
  exists visits : list visit,
    log (fst s') = visitLog visits ++ log (fst s) /\
    grid (fst s') = replay (visitLog visits) (grid (fst s)) /\
    snd s' = Z.min (Z.max (snd s) (len bits)) (snd s + len visits) /\
    forall (j : nat) (r c : Z) (b : bool),
      visits !! j = Some (r, c, b) ->
      b = bitIs1 bits (snd s + Z.of_nat j) /\
      getCell (grid (fst s')) r c = Some (Some (masked b r c)).

(** The assignments of a record that found their module unset. *)
Fixpoint firsts (l : list write) : list write :=
  match l with
  | [] => []
  | w :: l' => if isSet (w_old w) then firsts l' else w :: firsts l'
  end.

(** The modules of a list whose row plus column is even: the ones mask
    pattern 0 flips. *)
Fixpoint flipped (sites : list (Z * Z)) : list (Z * Z) :=
  match sites with
  | [] => []
  | s :: sites' =>
      if Z.rem (fst s + snd s) 2 =? 0 then s :: flipped sites'
      else flipped sites'
  end.

(** [w] is the mask flip of line 122 that follows the assignment [w0] of
    line 120: the same module, whose row plus column is even, found unset by
    [w0] and given by [w] the negation of what [w0] gave it. *)
Definition flipOf (w0 w : write) : Prop :=
  site w = site w0 /\ Z.rem (w_row w + w_col w) 2 = 0 /\
  w_old w0 = None /\ w_old w = Some (w_new w0) /\ w_new w = negb (w_new w0).

(** First writer wins, up to the mask: every assignment of a record (the
    latest first) found its module unset, or is the mask flip of the
    assignment just before it. *)
Fixpoint firstWins (l : list write) : Prop :=
  match l with
  | [] => True
  | w :: l' =>
      (unset_before w \/ match l' with
                         | w0 :: _ => flipOf w0 w
                         | [] => False
                         end)
      /\ firstWins l'
  end.

(** The same modules are set, and the same modules were written, in the
    same order. *)
Definition same_sites (st1 st2 : store) : Prop :=
  same_shape st1 st2 /\ site <$> log st1 = site <$> log st2.

Definition same_sites1 (s1 s2 : store * Z) : Prop :=
  same_sites (fst s1) (fst s2).

(** The bits of [x] from bit [hi] down to bit 0. *)
Definition bitsOf (x hi : Z) : list Z := bitAt x <$> countdown hi.

(** The payload, byte after byte, each from bit 7 down to bit 0. *)
Definition dataBits (data : list byte) : list Z :=
  flat_map (fun b => bitsOf (byteVal b) 7) data.

(** Width of the character-count field (line 97). *)
Definition countBitsOf (version : Z) : Z := if version <? 10 then 8 else 16.

(** Mode indicator, count field and data. *)
Definition streamHead (data : list byte) (version : Z) : list Z :=
  [0; 1; 0; 0] ++ bitsOf (len data) (countBitsOf version - 1) ++ dataBits data.

(** [n] padding bytes, 0xEC and 0x11 in turn, the first being [pad]. *)
Fixpoint padBytes (n : nat) (pad : Z) : list Z :=
  match n with
  | O => []
  | S n' => bitsOf pad 7 ++ padBytes n' (if pad =? 236 then 17 else 236)
  end.

(** The modules the function patterns set: three finder patterns with
    their borders, two timing lines, and one 5 x 5 alignment pattern for
    every pair of positions other than 6. *)
Definition patternModules (v : Z) : Z :=
  192 + 2 * (v * 4 + 17 - 16)
  + 25 * (if v >? 1 then (v / 7 + 1) ^ 2 else 0).

(** The modules left to the data pass. *)
Definition dataModules (v : Z) : Z := (v * 4 + 17) ^ 2 - patternModules v.

(** The modules the data pass visits at version [v], in the order it visits
    them: those that the assignments of the pass over an empty bit stream
    found unset. *)
Definition dataSites (v : Z) : list (Z * Z) :=
  match placePatterns enoughFuel v (initialStore v) with
  | Ok P =>
      match placeData enoughFuel [] P with
      | Ok F =>
          reverse (site <$> firsts (take (length (log F) - length (log P)) (log F)))
      | Err _ => []
      end
  | Err _ => []
  end.

(** The assignment counts of version [v], and the room they leave. *)
Definition countsOk (v : Z) : bool :=
  match placePatterns enoughFuel v (initialStore v) with
  | Ok P =>
      match placeData enoughFuel [] P with
      | Ok F =>
          (len (log P) =? patternModules v)
          && (len (firsts (log F)) =? (v * 4 + 17) ^ 2)
          && (8 * (CapacityTable v + headerBytes v) <=? dataModules v)
          && (getCapacity v * 8 <=? dataModules v)
          && (CapacityTable v <? 2 ^ countBitsOf v)
      | Err _ => false
      end
  | Err _ => false
  end.

(** The bit stream fillData builds, written out. *)
Definition bitStream (data : list byte) (version : Z) : list Z :=
  streamHead data version ++ [0; 0; 0; 0]
  ++ padBytes (Z.to_nat (getCapacity version
                         - (len data + headerBytes version))) 236.

(** The top-left modules of the three finder stamps (lines 37-39), as
    (row, column), in a grid of side [n]. *)
Definition finderAnchors (n : Z) : list (Z * Z) :=
  [(0, 0); (n - 7, 0); (0, n - 7)].

(** Inside the grid of side [n]. *)
Definition inGrid (n r c : Z) : bool :=
  (0 <=? r) && (r <? n) && (0 <=? c) && (c <? n).

(** After the patterns of version [v], every module of the three finder
    stamps that falls inside the grid has the colour of the stamp. *)
Definition finderOk (v : Z) : bool :=
  match placePatterns enoughFuel v (initialStore v) with
  | Ok P =>
      forallb (fun a : Z * Z =>
        forallb (fun r =>
          forallb (fun c =>
            negb (inGrid (v * 4 + 17) (fst a + r) (snd a + c))
            || cellIs (grid P) (fst a + r) (snd a + c) (finderDark r c))
            (seqZ (-1) 9)) (seqZ (-1) 9)) (finderAnchors (v * 4 + 17))
  | Err _ => false
  end.

(** The alignment positions of version [v] other than 6. *)
Definition alignmentCentres (v : Z) : list Z :=
  match getAlignmentPos enoughFuel v with
  | Ok pos => filter (fun p => p <> 6) pos
  | Err _ => []
  end.

(** After the patterns of version [v], a whole alignment stamp sits at
    every pair of alignment positions other than 6. *)
Definition alignmentOk (v : Z) : bool :=
  match placePatterns enoughFuel v (initialStore v) with
  | Ok P =>
      forallb (fun p =>
        forallb (fun q =>
          forallb (fun r =>
            forallb (fun c =>
              cellIs (grid P) (p + r) (q + c) (alignmentDark r c))
              (seqZ (-2) 5)) (seqZ (-2) 5))
          (alignmentCentres v)) (alignmentCentres v)
  | Err _ => false
  end.

(** ** renderQRToDataURL (lines 139-157)

    The canvas is modelled by what is drawn on it: its side and, over the
    white background, the black squares in drawing order.  Turning the
    canvas into a data URL is left to the platform. *)

(** [fillRect(x, y, w, h)] *)
Record rect : Type := Rect {
  rx : Z;
  ry : Z;
  rw : Z;
  rh : Z
}.

Record canvas : Type := Canvas {
  side : Z;
  black : list rect
}.

(** [if (matrix[row][col])]: only [true] is truthy. *)
Definition truthy (c : option cell) : bool :=
  match c with
  | Some (Some true) => true
  | _ => false
  end.

(** lines 149-155 *)
Definition drawModules (m : matrix) (cellSize : Z) : list rect :=
  foldl (fun acc row =>
    foldl (fun acc col =>
      if truthy (getCell m row col)
      then acc ++ [Rect (col * cellSize) (row * cellSize) cellSize cellSize]
      else acc) acc (seqZ 0 (len m))) [] (seqZ 0 (len m)).

(** lines 139-157; [QRCode.generate(text)] runs with the default level 'M'.
    [Math.floor(size / matrix.length)] is the integer quotient. *)
Definition renderQRToDataURL (fuel : nat) (text : list byte) (size : Z)
    : result canvas :=
  do st <- generateQR fuel text EclM;
  let cellSize := size / len (grid st) in
  let actualSize := cellSize * len (grid st) in
  Ok {| side := actualSize; black := drawModules (grid st) cellSize |}.

(** The pixel (x, y) lies in the rectangle. *)
Definition covers (rc : rect) (x y : Z) : Prop :=
  rx rc <= x < rx rc + rw rc /\ ry rc <= y < ry rc + rh rc.

(** ** The inventory screen *)

(** lines 378-380 of SizeIndicator.  The percentage is a double in the source; exact
    rationals stand for it here, which gives the same comparisons for byte
    counts against the limit of 2000 the application uses. *)
Inductive status : Type := safe | warning | danger.

Definition percentage (currentBytes maxBytes : Z) : Q :=
  Qmin (inject_Z currentBytes / inject_Z maxBytes * inject_Z 100)
       (inject_Z 100).

Definition SizeIndicator (currentBytes maxBytes : Z) : status :=
  if Qlt_le_dec (inject_Z 100) (percentage currentBytes maxBytes) then danger
  else if Qlt_le_dec (inject_Z 75) (percentage currentBytes maxBytes) then warning
  else safe.

(** line 563 *)
Definition canGenerateQR (items currentBytes : Z) : bool :=
  (items >? 0) && (currentBytes <=? 2000).

(** [arr.map((x, idx) => f(x, idx))], the indices counted from [idx]. *)
Fixpoint mapFrom {A B : Type} (f : A -> nat -> B) (idx : nat) (l : list A)
    : list B :=
  match l with
  | [] => []
  | x :: l' => f x idx :: mapFrom f (S idx) l'
  end.

(** [arr.filter((x, idx) => p(x, idx))], the indices counted from [idx]. *)
Fixpoint filterFrom {A : Type} (p : A -> nat -> bool) (idx : nat) (l : list A)
    : list A :=
  match l with
  | [] => []
  | x :: l' =>
      if p x idx then x :: filterFrom p (S idx) l' else filterFrom p (S idx) l'
  end.

(** line 715: [prev.map((item, idx) => idx === i ? data : item)] *)
Definition onUpdate {A : Type} (i : nat) (data : A) (prev : list A) : list A :=
  mapFrom (fun item idx => if Nat.eqb idx i then data else item) 0 prev.

(** line 716: [prev.filter((_, idx) => idx !== i)] *)
Definition onDelete {A : Type} (i : nat) (prev : list A) : list A :=
  filterFrom (fun _ idx => negb (Nat.eqb idx i)) 0 prev.

(** Two payloads of 1103 bytes that differ in their last byte only. *)
Definition longPayloadA : list byte := replicate 1103 "A"%byte.
Definition longPayloadB : list byte := replicate 1102 "A"%byte ++ ["B"%byte].

(** Consecutive positions are at least 16 apart. *)
Fixpoint spacedb (l : list Z) : bool :=
  match l with
  | p :: (q :: _) as t => (p + 16 <=? q) && spacedb t
  | _ => true
  end.

(** The alignment positions of version [v] are floor(v / 7) + 1 centres,
    increasing by at least 16 from at least 18 up to 4 v + 10, followed by
    6. *)
Definition alignmentPosOk (v : Z) : bool :=
  match getAlignmentPos enoughFuel v with
  | Ok pos =>
      bool_decide (pos = alignmentCentres v ++ [6])
      && (len (alignmentCentres v) =? v / 7 + 1)
      && bool_decide (last (alignmentCentres v) = Some (4 * v + 10))
      && forallb (fun p => 18 <=? p) (alignmentCentres v)
      && spacedb (alignmentCentres v)
  | Err _ => false
  end.

(** ** processTranscription (lines 490-495) and its button

    A string is the list of its UTF-16 code units. *)

(** WhiteSpace and LineTerminator code points, which [trim] strips. *)
Definition isWhiteSpace (c : Z) : bool :=
  bool_decide (c ∈ [9; 10; 11; 12; 13; 32; 160; 5760; 8192; 8193; 8194;
                    8195; 8196; 8197; 8198; 8199; 8200; 8201; 8202; 8232;
                    8233; 8239; 8287; 12288; 65279]).

Fixpoint trimStart (s : list Z) : list Z :=
  match s with
  | [] => []
  | c :: s' => if isWhiteSpace c then trimStart s' else s
  end.

(** [s.trim()] *)
Definition trim (s : list Z) : list Z :=
  reverse (trimStart (reverse (trimStart s))).

(** The empty string is the only falsy string. *)
Definition falsy (s : list Z) : bool :=
  match s with
  | [] => true
  | _ => false
  end.

(** What a click on "Process with AI" leads to: the error 'Please record
    or enter some text first.', or a request for the text. *)
Inductive processOutcome : Type :=
| NothingToProcess
| Request (text : list Z).

(** lines 490-495: [transcription || manualInput], then the guard. *)
Definition processTranscription (transcription manualInput : list Z)
    : processOutcome :=
  let textToProcess :=
    if falsy transcription then manualInput else transcription in
  if falsy (trim textToProcess) then NothingToProcess
  else Request textToProcess.

(** line 649: the [disabled] attribute of the button. *)
Definition processDisabled (isProcessing : bool)
    (transcription manualInput : list Z) : bool :=
  isProcessing || (falsy (trim transcription) && falsy (trim manualInput)).

(** ** Basic facts *)

Lemma bind_Ok {A B : Type} (x : result A) (f : A -> result B) (b : B) :
  bind x f = Ok b -> exists a, x = Ok a /\ f a = Ok b.
Proof. destruct x as [a|e]; simpl; [eauto | discriminate]. Qed.

Lemma at_index_Some {A : Type} (l : list A) (i : Z) (x : A) :
  at_index l i = Some x -> 0 <= i < len l.
Proof.
  unfold at_index, len. destruct (Z.ltb_spec i 0) as [|Hi]; [discriminate|].
  intros Hl. apply lookup_lt_Some in Hl. lia.
Qed.

Lemma at_index_in_range {A : Type} (l : list A) (i : Z) :
  0 <= i < len l -> exists x, at_index l i = Some x.
Proof.
  unfold at_index, len. intros Hi.
  destruct (Z.ltb_spec i 0); [lia|].
  apply lookup_lt_is_Some_2. lia.
Qed.

(** ** The version scan *)

Lemma getVersion_from_spec (n : nat) (v len : Z) :
  let r := getVersion_from n v len in
  (v <= r < v + Z.of_nat n /\ caps_ge (r - 1) len = true /\
   forall w, v <= w < r -> caps_ge (w - 1) len = false) \/
  (r = 20 /\ forall w, v <= w < v + Z.of_nat n -> caps_ge (w - 1) len = false).
Proof.
  revert v. induction n as [|n IH]; intros v; simpl.
  - right. split; [reflexivity | intros w Hw; lia].
  - destruct (caps_ge (v - 1) len) eqn:Hc.
    + left. split; [lia|]. split; [exact Hc | intros w Hw; lia].
    + destruct (IH (v + 1)) as [(Hr & Hge & Hlt) | (Hr & Hlt)].
      * left. split; [lia|]. split; [exact Hge|].
        intros w Hw. destruct (Z.eq_dec w v) as [->|]; [exact Hc|].
        apply Hlt. lia.
      * right. split; [exact Hr|].
        intros w Hw. destruct (Z.eq_dec w v) as [->|]; [exact Hc|].
        apply Hlt. lia.
Qed.

Lemma getVersion_range (len : Z) (ecl : ErrorCorrectionLevel) :
  1 <= getVersion len ecl <= 20.
Proof.
  unfold getVersion.
  destruct (getVersion_from_spec 20 1 len) as [(Hr & _) | (Hr & _)]; lia.
Qed.

Lemma caps_ge_CapacityTable (v L : Z) :
  1 <= v <= 20 -> caps_ge (v - 1) L = (CapacityTable v >=? L).
Proof.
  intros Hv. unfold caps_ge, CapacityTable.
  destruct (at_index_in_range caps (v - 1)) as [c Hc].
  { unfold len; simpl. lia. }
  rewrite Hc. reflexivity.
Qed.

(** ** Reading and writing modules *)

Lemma at_index_insert_eq {A : Type} (l : list A) (i : Z) (x : A) :
  0 <= i < len l -> at_index (<[Z.to_nat i := x]> l) i = Some x.
Proof.
  unfold at_index, len. intros Hi. destruct (Z.ltb_spec i 0); [lia|].
  apply list_lookup_insert_eq. lia.
Qed.

Lemma at_index_insert_ne {A : Type} (l : list A) (i j : Z) (x : A) :
  0 <= i -> i <> j -> at_index (<[Z.to_nat i := x]> l) j = at_index l j.
Proof.
  unfold at_index. intros Hi Hij. destruct (Z.ltb_spec j 0); [reflexivity|].
  apply list_lookup_insert_ne. lia.
Qed.

Lemma at_index_fmap {A B : Type} (f : A -> B) (l : list A) (i : Z) :
  at_index (f <$> l) i = f <$> at_index l i.
Proof.
  unfold at_index. destruct (i <? 0); [reflexivity|]. apply list_lookup_fmap.
Qed.

Lemma setCell_Ok (st st' : store) (r c : Z) (b : bool) :
  setCell st r c b = Ok st' ->
  exists rowv old,
    at_index (grid st) r = Some rowv /\ at_index rowv c = Some old /\
    st' = {| grid := <[Z.to_nat r := <[Z.to_nat c := Some b]> rowv]> (grid st);
             log := Write r c old b :: log st |}.
Proof.
  unfold setCell.
  destruct (at_index (grid st) r) as [rowv|] eqn:Hr; [|discriminate].
  destruct (at_index rowv c) as [old|] eqn:Hc; [|discriminate].
  intros [= <-]. exists rowv, old. auto.
Qed.

Lemma getCell_insert_eq (m : matrix) (r c : Z) (rowv : list cell) (x : cell) :
  at_index m r = Some rowv -> 0 <= c < len rowv ->
  getCell (<[Z.to_nat r := <[Z.to_nat c := x]> rowv]> m) r c = Some x.
Proof.
  intros Hr Hc. unfold getCell.
  rewrite at_index_insert_eq by (eapply at_index_Some; eauto).
  apply at_index_insert_eq, Hc.
Qed.

Lemma getCell_insert_ne (m : matrix) (r c r' c' : Z) (rowv : list cell) (x : cell) :
  at_index m r = Some rowv -> 0 <= c ->
  (r', c') <> (r, c) ->
  getCell (<[Z.to_nat r := <[Z.to_nat c := x]> rowv]> m) r' c' = getCell m r' c'.
Proof.
  intros Hr Hc Hne. unfold getCell.
  pose proof (at_index_Some _ _ _ Hr) as Hrange.
  destruct (Z.eq_dec r r') as [<-|Hrr].
  - rewrite at_index_insert_eq by exact Hrange. rewrite Hr.
    apply at_index_insert_ne; [exact Hc | congruence].
  - rewrite at_index_insert_ne by lia. reflexivity.
Qed.

Lemma dims_insert (m : matrix) (r c : Z) (rowv : list cell) (x : cell) :
  at_index m r = Some rowv ->
  length <$> <[Z.to_nat r := <[Z.to_nat c := x]> rowv]> m = length <$> m.
Proof.
  intros Hr. rewrite list_fmap_insert, length_insert.
  apply list_insert_id. rewrite list_lookup_fmap.
  unfold at_index in Hr. destruct (r <? 0); [discriminate|].
  rewrite Hr. reflexivity.
Qed.

(** What one assignment does to the store. *)
Lemma setCell_spec (st st' : store) (r c : Z) (b : bool) :
  setCell st r c b = Ok st' ->
  exists old,
    getCell (grid st) r c = Some old /\
    log st' = Write r c old b :: log st /\
    grid st' = applyWrite (Write r c old b) (grid st) /\
    length <$> grid st' = length <$> grid st /\
    getCell (grid st') r c = Some (Some b) /\
    forall r' c', (r', c') <> (r, c) ->
      getCell (grid st') r' c' = getCell (grid st) r' c'.
Proof.
  intros Hset.
  destruct (setCell_Ok _ _ _ _ _ Hset) as (rowv & old & Hr & Hc & ->).
  pose proof (at_index_Some _ _ _ Hc) as Hcr.
  exists old. simpl.
  split; [unfold getCell; rewrite Hr; exact Hc|].
  split; [reflexivity|].
  split; [unfold applyWrite; simpl; rewrite Hr; reflexivity|].
  split; [apply dims_insert, Hr|].
  split; [apply getCell_insert_eq; assumption|].
  intros r' c' Hne. apply getCell_insert_ne; [exact Hr | lia | exact Hne].
Qed.

Lemma extends_refl (st : store) : extends st st.
Proof. split; [reflexivity | auto]. Qed.

Lemma extends_trans (st1 st2 st3 : store) :
  extends st1 st2 -> extends st2 st3 -> extends st1 st3.
Proof. intros [Hd1 Hk1] [Hd2 Hk2]. split; [congruence | auto]. Qed.

Lemma replay_app (l2 l1 : list write) (m : matrix) :
  replay (l2 ++ l1) m = replay l2 (replay l1 m).
Proof. unfold replay. apply foldr_app. Qed.

Lemma visitLog_app (v1 v2 : list visit) :
  visitLog (v1 ++ v2) = visitLog v2 ++ visitLog v1.
Proof. unfold visitLog. rewrite flat_map_app. apply reverse_app. Qed.

Lemma visitLog_cons (v : visit) (vs : list visit) :
  visitLog (v :: vs) = visitLog vs ++ visitLog [v].
Proof. apply (visitLog_app [v] vs). Qed.

Lemma visitLog_one (r c : Z) (b : bool) :
  visitLog [(r, c, b)]
  = if Z.rem (r + c) 2 =? 0
    then [Write r c (Some b) (negb b); Write r c None b]
    else [Write r c None b].
Proof.
  unfold visitLog. cbn [flat_map visitWrites]. rewrite app_nil_r.
  destruct (Z.rem (r + c) 2 =? 0); reflexivity.
Qed.

(** ** Invariants of loops *)

Section ForEach.
Context {A S : Type} (R : S -> S -> Prop).
Hypothesis R_refl : forall s, R s s.
Hypothesis R_trans : forall s1 s2 s3, R s1 s2 -> R s2 s3 -> R s1 s3.

Lemma forEach_preserves (body : A -> S -> result S) (xs : list A) :
  (forall x s s', body x s = Ok s' -> R s s') ->
  forall s s', forEach xs body s = Ok s' -> R s s'.
Proof.
  intros Hbody. induction xs as [|x xs IH]; intros s s'; simpl.
  - intros [= <-]. apply R_refl.
  - intros Hrun. apply bind_Ok in Hrun as (s1 & H1 & H2).
    eapply R_trans; [eapply Hbody, H1 | apply IH, H2].
Qed.
End ForEach.

Lemma bitIs1_beyond (bits : list Z) (j : Z) :
  len bits <= j -> bitIs1 bits j = false.
Proof.
  intros Hj. unfold bitIs1.
  destruct (at_index bits j) as [x|] eqn:Hx; [|reflexivity].
  apply at_index_Some in Hx. lia.
Qed.

Lemma bitIs1_saturated (bits : list Z) (i n j : Z) :
  0 <= n -> 0 <= j ->
  bitIs1 bits (Z.min (Z.max i (len bits)) (i + n) + j) = bitIs1 bits (i + n + j).
Proof.
  intros Hn Hj.
  destruct (Z.le_gt_cases (i + n) (Z.max i (len bits))) as [Hle|Hgt].
  - rewrite Z.min_r by lia. reflexivity.
  - rewrite !bitIs1_beyond by lia. reflexivity.
Qed.

Lemma placed_refl (bits : list Z) (s : store * Z) : placed bits s s.
Proof.
  split; [apply extends_refl|]. exists [].
  split; [reflexivity|]. split; [reflexivity|]. split.
  - unfold len; simpl. lia.
  - intros j r c b Hj. cbn in Hj. discriminate Hj.
Qed.

Lemma placed_trans (bits : list Z) (s1 s2 s3 : store * Z) :
  placed bits s1 s2 -> placed bits s2 s3 -> placed bits s1 s3.
Proof.
  intros [He1 (v1 & Hl1 & Hg1 & Hi1 & Hv1)] [He2 (v2 & Hl2 & Hg2 & Hi2 & Hv2)].
  split; [eapply extends_trans; eassumption|].
  exists (v1 ++ v2). rewrite visitLog_app.
  split; [rewrite Hl2, Hl1; apply app_assoc|].
  split; [rewrite Hg2, Hg1; symmetry; apply replay_app|].
  assert (len (v1 ++ v2) = len v1 + len v2) as Hlen
    by (unfold len; rewrite length_app; lia).
  assert (0 <= len v1 /\ 0 <= len v2) as [Hp1 Hp2] by (unfold len; lia).
  split.
  - rewrite Hi2, Hi1, Hlen. lia.
  - intros j r c b Hj.
    destruct (lookup_app_Some v1 v2 j (r, c, b)) as [Hcases _].
    destruct (Hcases Hj) as [Hin1 | [Hge Hin2]].
    + destruct (Hv1 j r c b Hin1) as [Hval Hcell]. split; [exact Hval|].
      apply (ext_keep _ _ He2), Hcell.
    + destruct (Hv2 _ r c b Hin2) as [Hval Hcell]. split; [|exact Hcell].
      rewrite Hval, Hi1. rewrite bitIs1_saturated by lia.
      f_equal. unfold len. lia.
Qed.

(** One visit: an unset module receives the next bit and then, where row +
    column is even, its negation; a module that is set is left alone. *)
Lemma placeCell_placed (bits : list Z) (row cc : Z) (s s' : store * Z) :
  placeCell bits row cc s = Ok s' -> placed bits s s'.
Proof.
  destruct s as [st i]. unfold placeCell.
  destruct (at_index (grid st) row) as [rowv|] eqn:Hr; [|discriminate].
  destruct (at_index rowv cc) as [[b0|]|] eqn:Hc;
    try (intros [= <-]; apply placed_refl).
  assert ((if i <? len bits
           then (match at_index bits i with Some 1 => true | _ => false end, i + 1)
           else (false, i))
          = (bitIs1 bits i, Z.min (Z.max i (len bits)) (i + 1))) as Hread.
  { destruct (Z.ltb_spec i (len bits)).
    - unfold bitIs1. f_equal. lia.
    - rewrite bitIs1_beyond by lia. f_equal. lia. }
  rewrite Hread. clear Hread. set (b := bitIs1 bits i).
  intros Hrun.
  apply bind_Ok in Hrun as (st1 & Hset1 & Hrun).
  apply bind_Ok in Hrun as (st2 & Hset2 & [= <-]).
  assert (getCell (grid st) row cc = Some None) as Hnull
    by (unfold getCell; rewrite Hr; exact Hc).
  destruct (setCell_spec _ _ _ _ _ Hset1)
    as (old & Hold & Hlog1 & Hgrid1 & Hdim1 & Hcell1 & Hne1).
  assert (old = None) as -> by congruence.
  assert (forall r' c' b', getCell (grid st) r' c' = Some (Some b') ->
                           (r', c') <> (row, cc)) as Hother
    by (intros r' c' b' Hb' [= -> ->]; congruence).
  unfold placed. cbn [fst snd].
  assert (forall j r c b', [(row, cc, b)] !! j = Some (r, c, b') ->
                           r = row /\ c = cc /\ b' = b /\ j = 0%nat)
    as Hone.
  { intros [|j] r c b' Hj; [|discriminate Hj].
    injection Hj as <- <- <-. auto. }
  unfold masked.
  destruct (Z.rem (row + cc) 2 =? 0) eqn:Hpar.
  - rewrite Hcell1 in Hset2.
    assert (jsNot (Some (Some b)) = negb b) as Hnot by (destruct b; reflexivity).
    rewrite Hnot in Hset2.
    destruct (setCell_spec _ _ _ _ _ Hset2)
      as (old2 & Hold2 & Hlog2 & Hgrid2 & Hdim2 & Hcell2 & Hne2).
    assert (old2 = Some b) as -> by congruence.
    split.
    + split; [congruence|].
      intros r' c' b' Hb'. pose proof (Hother _ _ _ Hb') as Hne.
      rewrite Hne2, Hne1 by exact Hne. exact Hb'.
    + exists [(row, cc, b)]. rewrite visitLog_one, Hpar.
      split; [rewrite Hlog2, Hlog1; reflexivity|].
      split; [rewrite Hgrid2, Hgrid1; reflexivity|].
      split; [reflexivity|].
      intros j r c b' Hj. destruct (Hone _ _ _ _ Hj) as (-> & -> & -> & ->).
      split; [unfold b; f_equal; lia|]. rewrite Hpar. exact Hcell2.
  - injection Hset2 as <-.
    split.
    + split; [exact Hdim1|].
      intros r' c' b' Hb'. pose proof (Hother _ _ _ Hb') as Hne.
      rewrite Hne1 by exact Hne. exact Hb'.
    + exists [(row, cc, b)]. rewrite visitLog_one, Hpar.
      split; [exact Hlog1|].
      split; [exact Hgrid1|].
      split; [reflexivity|].
      intros j r c b' Hj. destruct (Hone _ _ _ _ Hj) as (-> & -> & -> & ->).
      split; [unfold b; f_equal; lia|]. rewrite Hpar. exact Hcell1.
Qed.

Lemma rowLoop_placed (fuel : nat) (bits : list Z) (size dir col : Z) :
  forall row s s',
    rowLoop fuel bits size dir col row s = Ok s' -> placed bits s s'.
Proof.
  induction fuel as [|f IH]; intros row s s'; cbn [rowLoop]; [discriminate|].
  destruct ((row >=? 0) && (row <? size)).
  - intros Hrun. apply bind_Ok in Hrun as (s1 & H1 & H2).
    eapply placed_trans; [|eapply IH, H2].
    eapply (forEach_preserves (placed bits) (placed_refl bits) (placed_trans bits));
      [|exact H1].
    intros c s0 s0'. apply placeCell_placed.
  - intros [= <-]. apply placed_refl.
Qed.

Lemma colLoop_placed (fuel : nat) (bits : list Z) (size : Z) :
  forall dir col s s',
    colLoop fuel bits size dir col s = Ok s' -> placed bits s s'.
Proof.
  induction fuel as [|f IH]; intros dir col s s'; cbn [colLoop]; [discriminate|].
  destruct (col >? 0).
  - intros Hrun. apply bind_Ok in Hrun as (s1 & H1 & H2).
    eapply placed_trans; [eapply rowLoop_placed, H1 | eapply IH, H2].
  - intros [= <-]. apply placed_refl.
Qed.

(** What the data pass did: a sequence of visits to unset modules, which
    took the bits of the stream from index 0 on; the record grew by the
    assignments of these visits, and the grid still holds the masked bits
    at the end. *)
Lemma placeData_placed (fuel : nat) (bits : list Z) (st st' : store) :
  placeData fuel bits st = Ok st' ->
  extends st st' /\
  exists visits : list visit,
    log st' = visitLog visits ++ log st /\
    grid st' = replay (visitLog visits) (grid st) /\
    forall (j : nat) (r c : Z) (b : bool),
      visits !! j = Some (r, c, b) ->
      b = bitIs1 bits (Z.of_nat j) /\
      getCell (grid st') r c = Some (Some (masked b r c)).
Proof.
  unfold placeData. intros Hrun.
  apply bind_Ok in Hrun as (s & Hs & [= <-]).
  destruct (colLoop_placed _ _ _ _ _ _ _ Hs)
    as [Hext (visits & Hlog & Hgrid & _ & Hval)].
  cbn [fst snd] in *. split; [exact Hext|].
  exists visits. split; [exact Hlog|]. split; [exact Hgrid|].
  intros j r c b Hj. exact (Hval j r c b Hj).
Qed.

(** The data pass never changes a module that was set before it started. *)
Lemma placeData_extends (fuel : nat) (bits : list Z) (st st' : store) :
  placeData fuel bits st = Ok st' -> extends st st'.
Proof. intros Hrun. apply (placeData_placed _ _ _ _ Hrun). Qed.

(** ** First writer wins, up to the mask *)

Lemma firstWins_unset (l : list write) :
  Forall unset_before l -> firstWins l.
Proof.
  induction 1 as [|w l Hw _ IH]; [exact I|].
  split; [left; exact Hw | exact IH].
Qed.

Lemma firstWins_visits (visits : list visit) :
  forall l, firstWins l -> firstWins (visitLog visits ++ l).
Proof.
  induction visits as [|[[r c] b] visits IH]; intros l Hl; [exact Hl|].
  rewrite visitLog_cons, <- app_assoc. apply IH.
  rewrite visitLog_one.
  destruct (Z.rem (r + c) 2 =? 0) eqn:Hpar.
  - split; [|split; [left; reflexivity | exact Hl]].
    right. unfold flipOf, site. cbn.
    apply Z.eqb_eq in Hpar. auto.
  - split; [left; reflexivity | exact Hl].
Qed.

(** ** The placement pass does not look at the colours

    Which modules the data pass visits, and whether it fails, depends only
    on which modules are set: two runs from stores of the same shape, with
    any two bit streams, stay in step. *)

Lemma rel_result_bind {A1 A2 B1 B2 : Type}
    (R : A1 -> A2 -> Prop) (R' : B1 -> B2 -> Prop)
    (x1 : result A1) (x2 : result A2)
    (f1 : A1 -> result B1) (f2 : A2 -> result B2) :
  rel_result R x1 x2 ->
  (forall a1 a2, R a1 a2 -> rel_result R' (f1 a1) (f2 a2)) ->
  rel_result R' (bind x1 f1) (bind x2 f2).
Proof.
  destruct x1 as [a1|e1], x2 as [a2|e2]; simpl; intros Hx Hf;
    try contradiction; auto.
Qed.

Lemma forEach_rel {A S1 S2 : Type} (R : S1 -> S2 -> Prop)
    (body1 : A -> S1 -> result S1) (body2 : A -> S2 -> result S2)
    (xs : list A) :
  (forall x s1 s2, R s1 s2 -> rel_result R (body1 x s1) (body2 x s2)) ->
  forall s1 s2, R s1 s2 ->
    rel_result R (forEach xs body1 s1) (forEach xs body2 s2).
Proof.
  intros Hbody. induction xs as [|x xs IH]; intros s1 s2 HR; simpl.
  - exact HR.
  - eapply rel_result_bind; [apply Hbody, HR | exact IH].
Qed.

Lemma same_shape_row (st1 st2 : store) (r : Z) :
  same_shape st1 st2 ->
  rowShape <$> at_index (grid st1) r = rowShape <$> at_index (grid st2) r.
Proof.
  unfold same_shape, shape. intros H.
  apply (f_equal (fun l => at_index l r)) in H.
  rewrite !at_index_fmap in H. exact H.
Qed.

Lemma same_row_cell (row1 row2 : list cell) (c : Z) :
  rowShape row1 = rowShape row2 ->
  isSet <$> at_index row1 c = isSet <$> at_index row2 c.
Proof.
  unfold rowShape. intros H. apply (f_equal (fun l => at_index l c)) in H.
  rewrite !at_index_fmap in H. exact H.
Qed.

Lemma shape_insert (m : matrix) (i j : nat) (rowv : list cell) (b : bool) :
  shape (<[i := <[j := Some b]> rowv]> m)
  = <[i := <[j := true]> (rowShape rowv)]> (shape m).
Proof.
  unfold shape, rowShape. rewrite list_fmap_insert, list_fmap_insert.
  reflexivity.
Qed.

Lemma setCell_same_shape (st1 st2 : store) (r c : Z) (b1 b2 : bool) :
  same_shape st1 st2 ->
  rel_result same_shape (setCell st1 r c b1) (setCell st2 r c b2).
Proof.
  intros H. pose proof (same_shape_row _ _ r H) as Hr. unfold setCell.
  destruct (at_index (grid st1) r) as [row1|], (at_index (grid st2) r) as [row2|];
    simpl in Hr; try discriminate; [|reflexivity].
  injection Hr as Hr. pose proof (same_row_cell _ _ c Hr) as Hc.
  destruct (at_index row1 c) as [o1|], (at_index row2 c) as [o2|];
    simpl in Hc; try discriminate; [|reflexivity].
  simpl. unfold same_shape. simpl. rewrite !shape_insert.
  unfold same_shape in H. rewrite H, Hr. reflexivity.
Qed.

Lemma placeCell_same_shape (bits1 bits2 : list Z) (row cc : Z)
    (s1 s2 : store * Z) :
  same_shape1 s1 s2 ->
  rel_result same_shape1 (placeCell bits1 row cc s1) (placeCell bits2 row cc s2).
Proof.
  destruct s1 as [st1 i1], s2 as [st2 i2]. unfold same_shape1. simpl.
  intros H. pose proof (same_shape_row _ _ row H) as Hr.
  destruct (at_index (grid st1) row) as [row1|], (at_index (grid st2) row) as [row2|];
    simpl in Hr; try discriminate; [|reflexivity].
  injection Hr as Hr. pose proof (same_row_cell _ _ cc Hr) as Hc.
  destruct (at_index row1 cc) as [[x1|]|], (at_index row2 cc) as [[x2|]|];
    simpl in Hc; try discriminate; try exact H.
  destruct (if i1 <? len bits1 then _ else _) as [b1 j1].
  destruct (if i2 <? len bits2 then _ else _) as [b2 j2].
  eapply rel_result_bind; [apply setCell_same_shape, H|].
  intros a1 a2 Ha.
  eapply rel_result_bind; [|intros a1' a2' Ha'; exact Ha'].
  destruct (Z.rem (row + cc) 2 =? 0); [apply setCell_same_shape, Ha | exact Ha].
Qed.

Lemma rowLoop_same_shape (fuel : nat) (bits1 bits2 : list Z) (size dir col : Z) :
  forall row s1 s2, same_shape1 s1 s2 ->
    rel_result same_shape1 (rowLoop fuel bits1 size dir col row s1)
                           (rowLoop fuel bits2 size dir col row s2).
Proof.
  induction fuel as [|f IH]; intros row s1 s2 H; cbn [rowLoop]; [reflexivity|].
  destruct ((row >=? 0) && (row <? size)); [|exact H].
  eapply rel_result_bind; [|intros a1 a2 Ha; apply IH, Ha].
  apply forEach_rel; [|exact H].
  intros c a1 a2 Ha. apply placeCell_same_shape, Ha.
Qed.

Lemma colLoop_same_shape (fuel : nat) (bits1 bits2 : list Z) (size : Z) :
  forall dir col s1 s2, same_shape1 s1 s2 ->
    rel_result same_shape1 (colLoop fuel bits1 size dir col s1)
                           (colLoop fuel bits2 size dir col s2).
Proof.
  induction fuel as [|f IH]; intros dir col s1 s2 H; cbn [colLoop]; [reflexivity|].
  destruct (col >? 0); [|exact H].
  eapply rel_result_bind; [|intros a1 a2 Ha; apply IH, Ha].
  apply rowLoop_same_shape, H.
Qed.

Lemma placeData_same_shape (fuel : nat) (bits1 bits2 : list Z) (st : store) :
  rel_result same_shape (placeData fuel bits1 st) (placeData fuel bits2 st).
Proof.
  unfold placeData.
  eapply rel_result_bind; [apply colLoop_same_shape; reflexivity|].
  intros a1 a2 Ha. exact Ha.
Qed.

(** ** More fuel does not change a result *)

Lemma alignLoop_mono (n m : nat) (intervals step : Z) :
  (n <= m)%nat -> forall p pos r,
    alignLoop n intervals step p pos = Ok r ->
    alignLoop m intervals step p pos = Ok r.
Proof.
  revert m. induction n as [|n IH]; intros m Hnm p pos r; simpl; [discriminate|].
  destruct m as [|m]; [lia|]. simpl.
  destruct (len pos <=? intervals); [|auto].
  apply IH. lia.
Qed.

Lemma rowLoop_mono (n m : nat) (bits : list Z) (size dir col : Z) :
  (n <= m)%nat -> forall row s r,
    rowLoop n bits size dir col row s = Ok r ->
    rowLoop m bits size dir col row s = Ok r.
Proof.
  revert m. induction n as [|n IH]; intros m Hnm row s r; cbn [rowLoop];
    [discriminate|].
  destruct m as [|m]; [lia|]. cbn [rowLoop].
  destruct ((row >=? 0) && (row <? size)); [|auto].
  intros Hrun. apply bind_Ok in Hrun as (s1 & H1 & H2).
  rewrite H1. simpl. apply IH; [lia | exact H2].
Qed.

Lemma colLoop_mono (n m : nat) (bits : list Z) (size : Z) :
  (n <= m)%nat -> forall dir col s r,
    colLoop n bits size dir col s = Ok r ->
    colLoop m bits size dir col s = Ok r.
Proof.
  revert m. induction n as [|n IH]; intros m Hnm dir col s r; cbn [colLoop];
    [discriminate|].
  destruct m as [|m]; [lia|]. cbn [colLoop].
  destruct (col >? 0); [|auto].
  intros Hrun. apply bind_Ok in Hrun as (s1 & H1 & H2).
  rewrite (rowLoop_mono n m _ _ _ _ ltac:(lia) _ _ _ H1). simpl.
  apply IH; [lia | exact H2].
Qed.

Lemma placeData_mono (n m : nat) (bits : list Z) (st r : store) :
  (n <= m)%nat -> placeData n bits st = Ok r -> placeData m bits st = Ok r.
Proof.
  unfold placeData. intros Hnm Hrun.
  apply bind_Ok in Hrun as (s & Hs & Hr).
  rewrite (colLoop_mono n m _ _ Hnm _ _ _ _ Hs). exact Hr.
Qed.

Lemma placePatterns_mono (n m : nat) (version : Z) (st r : store) :
  (n <= m)%nat ->
  placePatterns n version st = Ok r -> placePatterns m version st = Ok r.
Proof.
  unfold placePatterns. intros Hnm Hrun.
  apply bind_Ok in Hrun as (s1 & H1 & Hrun). rewrite H1. cbn [bind].
  apply bind_Ok in Hrun as (s2 & H2 & Hrun). rewrite H2. cbn [bind].
  apply bind_Ok in Hrun as (s3 & H3 & Hrun). rewrite H3. cbn [bind].
  apply bind_Ok in Hrun as (s4 & H4 & Hrun). rewrite H4. cbn [bind].
  revert Hrun. unfold addAlignment. destruct (version >? 1); [|auto].
  intros Hrun. apply bind_Ok in Hrun as (pos & Hpos & Hrun).
  revert Hpos. unfold getAlignmentPos. destruct (version =? 1).
  - intros [= <-]. exact Hrun.
  - intros Hpos. rewrite (alignLoop_mono n m _ _ Hnm _ _ _ Hpos). exact Hrun.
Qed.

(** ** The bit stream *)

Lemma len_app_one {A : Type} (l : list A) (x : A) : len (l ++ [x]) = len l + 1.
Proof. unfold len. rewrite length_app. simpl. lia. Qed.

Lemma len_foldl_push {A : Type} (f : A -> Z) (l : list A) :
  forall bits, len (foldl (fun bits i => bits ++ [f i]) bits l) = len bits + len l.
Proof.
  induction l as [|x l IH]; intros bits; simpl.
  - unfold len; simpl; lia.
  - rewrite IH, len_app_one. unfold len; simpl. lia.
Qed.

Lemma len_countdown (hi : Z) : -1 <= hi -> len (countdown hi) = hi + 1.
Proof.
  intros Hhi. unfold countdown, len. rewrite length_reverse, length_seqZ. lia.
Qed.

Lemma len_pushBits (x hi : Z) (bits : list Z) :
  -1 <= hi -> len (pushBits x hi bits) = len bits + hi + 1.
Proof.
  intros Hhi. unfold pushBits. rewrite len_foldl_push, len_countdown by exact Hhi.
  lia.
Qed.

Lemma len_data_bits (data : list byte) :
  forall bits,
    len (foldl (fun bits b => pushBits (byteVal b) 7 bits) bits data)
    = len bits + 8 * len data.
Proof.
  induction data as [|b data IH]; intros bits; simpl.
  - unfold len; simpl; lia.
  - rewrite IH, len_pushBits by lia. unfold len; simpl. lia.
Qed.

(** The terminator loop stops at the next multiple of 8, which is at most
    [k] bits away. *)
Lemma terminatorLoop_spec (fuel : nat) :
  forall (k : Z) (bits : list Z),
    0 <= k < 8 -> (len bits + k) mod 8 = 0 -> k < Z.of_nat fuel ->
    exists bits',
      terminatorLoop fuel bits = Ok bits' /\
      len bits' mod 8 = 0 /\ len bits <= len bits' <= len bits + k.
Proof.
  induction fuel as [|f IH]; intros k bits Hk Hmod Hfuel; [lia|].
  cbn [terminatorLoop].
  assert (0 <= len bits) as Hnn by (unfold len; lia).
  rewrite Z.rem_mod_nonneg by lia.
  destruct (Z.eqb_spec (len bits mod 8) 0) as [Hz|Hnz].
  - exists bits. split; [reflexivity|]. split; [exact Hz | lia].
  - assert (1 <= k) as Hk1.
    { destruct (Z.eq_dec k 0) as [->|]; [|lia].
      rewrite Z.add_0_r in Hmod. contradiction. }
    destruct (IH (k - 1) (bits ++ [0])) as (bits' & Hrun & Hm & Hl).
    + lia.
    + rewrite len_app_one. rewrite <- Hmod. f_equal. lia.
    + lia.
    + exists bits'. split; [exact Hrun|]. split; [exact Hm|].
      rewrite len_app_one in Hl. lia.
Qed.

Lemma len_padByte (idx : list Z) (pad capacity : Z) :
  forall bits,
    len (padByte idx pad capacity bits)
    = Z.min (len bits + len idx) (Z.max (len bits) capacity).
Proof.
  induction idx as [|i idx IH]; intros bits; simpl.
  - unfold len; simpl. lia.
  - destruct (Z.ltb_spec (len bits) capacity) as [Hlt|Hge].
    + rewrite IH, len_app_one. unfold len; simpl. unfold len in Hlt. lia.
    + unfold len; simpl. unfold len in Hge. lia.
Qed.

(** The padding loop stops exactly at the capacity, unless the stream is
    already longer. *)
Lemma padLoop_spec (fuel : nat) (capacity : Z) :
  forall (pad : Z) (bits : list Z),
    (1 <= fuel)%nat -> capacity - len bits <= 8 * (Z.of_nat fuel - 1) ->
    exists bits',
      padLoop fuel pad capacity bits = Ok bits' /\
      len bits' = Z.max (len bits) capacity.
Proof.
  induction fuel as [|f IH]; intros pad bits Hf Hfuel; [lia|].
  cbn [padLoop].
  destruct (Z.ltb_spec (len bits) capacity) as [Hlt|Hge].
  - pose proof (len_padByte (countdown 7) pad capacity bits) as Hlen.
    rewrite len_countdown in Hlen by lia.
    destruct (IH (if pad =? 236 then 17 else 236)
                 (padByte (countdown 7) pad capacity bits))
      as (bits' & Hrun & Hl); [lia | lia |].
    exists bits'. split; [exact Hrun | lia].
  - exists bits. split; [reflexivity | lia].
Qed.

Lemma buildBits_spec (fuel : nat) (data : list byte) (version : Z) :
  (9 <= fuel)%nat -> getCapacity version * 8 <= 8 * (Z.of_nat fuel - 1) ->
  exists bits,
    buildBits fuel data version = Ok bits /\
    len bits = Z.max (8 * (len data + headerBytes version))
                     (getCapacity version * 8).
Proof.
  intros Hf Hcap. unfold buildBits.
  set (countBits := if version <? 10 then 8 else 16).
  set (bits0 := foldl _ _ data).
  assert (len bits0 = 4 + countBits + 8 * len data) as Hlen0.
  { unfold bits0. rewrite len_data_bits, len_pushBits.
    - unfold len; simpl. lia.
    - unfold countBits. destruct (version <? 10); lia. }
  assert (0 <= len data) as Hnn by (unfold len; lia).
  destruct (terminatorLoop_spec fuel 4 bits0) as (bits1 & Hrun1 & Hm1 & Hl1).
  - lia.
  - rewrite Hlen0. unfold countBits.
    destruct (version <? 10).
    + replace (4 + 8 + 8 * len data + 4) with ((len data + 2) * 8) by lia.
      apply Z.mod_mul. lia.
    + replace (4 + 16 + 8 * len data + 4) with ((len data + 3) * 8) by lia.
      apply Z.mod_mul. lia.
  - lia.
  - rewrite Hrun1. cbn [bind].
    destruct (padLoop_spec fuel (getCapacity version * 8) 236 bits1)
      as (bits2 & Hrun2 & Hl2).
    + lia.
    + assert (0 <= len bits1) by (unfold len; lia). lia.
    + exists bits2. split; [exact Hrun2|]. rewrite Hl2. f_equal.
      apply Z.mod_divide in Hm1; [|lia]. destruct Hm1 as [q Hq].
      unfold headerBytes. unfold countBits in Hlen0.
      destruct (version <? 10); lia.
Qed.

(** ** Facts checked version by version *)

Lemma forallb_lookup {A : Type} (f : A -> bool) (l : list A) (i : nat) (x : A) :
  forallb f l = true -> l !! i = Some x -> f x = true.
Proof.
  revert i. induction l as [|y l IH]; intros i; simpl; [discriminate|].
  intros Hall. apply andb_true_iff in Hall as [Hy Hl].
  destruct i as [|i]; simpl.
  - intros [= <-]. exact Hy.
  - apply IH, Hl.
Qed.

Lemma forallb_at_index {A : Type} (f : A -> bool) (l : list A) (i : Z) (x : A) :
  forallb f l = true -> at_index l i = Some x -> f x = true.
Proof.
  unfold at_index. destruct (i <? 0); [discriminate|]. apply forallb_lookup.
Qed.

Lemma forallb_seqZ (f : Z -> bool) (m n : Z) :
  forallb f (seqZ m n) = true -> forall i, m <= i < m + n -> f i = true.
Proof.
  intros Hall i Hi.
  assert (seqZ m n !! Z.to_nat (i - m) = Some i) as Hlook.
  { rewrite lookup_seqZ. split; lia. }
  exact (forallb_lookup _ _ _ _ Hall Hlook).
Qed.

Lemma for_all_versions (f : Z -> bool) :
  forallb f versions = true -> forall v, 1 <= v <= 20 -> f v = true.
Proof. intros Hall v Hv. apply (forallb_seqZ f 1 20 Hall). lia. Qed.

Lemma getCapacity_bounds (v : Z) :
  1 <= v <= 20 -> 18 <= getCapacity v <= 1080.
Proof.
  intros Hv.
  assert (forallb (fun v => (18 <=? getCapacity v) && (getCapacity v <=? 1080))
                  versions = true) as Hall by (vm_compute; reflexivity).
  pose proof (for_all_versions _ Hall v Hv) as H. simpl in H.
  apply andb_true_iff in H as [H1 H2]. lia.
Qed.

Lemma patternsOk_all : forallb patternsOk versions = true.
Proof. vm_compute. reflexivity. Qed.

Lemma dataPassOk_all : forallb dataPassOk versions = true.
Proof. vm_compute. reflexivity. Qed.

Lemma cellIs_true (m : matrix) (r c : Z) (b : bool) :
  cellIs m r c b = true -> getCell m r c = Some (Some b).
Proof.
  unfold cellIs. destruct (getCell m r c) as [[b'|]|]; try discriminate.
  intros H. apply eqb_prop in H. congruence.
Qed.

Lemma unset_before_forallb (l : list write) :
  forallb (fun w => negb (isSet (w_old w))) l = true -> Forall unset_before l.
Proof.
  induction l as [|w l IH]; simpl; [constructor|].
  intros H. apply andb_true_iff in H as [Hw Hl].
  constructor; [|apply IH, Hl].
  unfold unset_before. destruct (w_old w); [discriminate | reflexivity].
Qed.

Lemma squareb_square (n : Z) (m : matrix) : squareb n m = true -> square n m.
Proof.
  unfold squareb, square. intros H. apply andb_true_iff in H as [Hn Hrows].
  split; [lia|].
  apply Forall_forall. intros rowv Hin.
  apply list_elem_of_In in Hin.
  rewrite forallb_forall in Hrows. specialize (Hrows rowv Hin). lia.
Qed.

Lemma allSet_same_shape (m1 m2 : matrix) :
  shape m1 = shape m2 -> allSet m1 = allSet m2.
Proof.
  assert (forall r1 r2 : list cell,
             rowShape r1 = rowShape r2 -> forallb isSet r1 = forallb isSet r2)
    as Hrow.
  { unfold rowShape. induction r1 as [|x r1 IH]; intros [|y r2]; simpl;
      try discriminate; [reflexivity|].
    intros [= Hxy Hr]. rewrite Hxy, (IH _ Hr). reflexivity. }
  unfold shape, allSet. revert m2.
  induction m1 as [|r1 m1 IH]; intros [|r2 m2]; simpl;
    try discriminate; [reflexivity|].
  intros [= Hr Hm]. rewrite (Hrow _ _ Hr), (IH _ Hm). reflexivity.
Qed.

Lemma squareb_same_shape (n : Z) (m1 m2 : matrix) :
  shape m1 = shape m2 -> squareb n m1 = squareb n m2.
Proof.
  intros H. unfold squareb. f_equal.
  - apply (f_equal length) in H. unfold shape in H.
    rewrite !length_fmap in H. unfold len. rewrite H. reflexivity.
  - unfold shape in H. revert m2 H.
    induction m1 as [|r1 m1 IH]; intros [|r2 m2]; simpl;
      try discriminate; [reflexivity|].
    intros [= Hr Hm]. rewrite (IH _ Hm). f_equal.
    apply (f_equal length) in Hr. unfold rowShape in Hr.
    rewrite !length_fmap in Hr. unfold len. rewrite Hr. reflexivity.
Qed.

(** In a full square matrix every module is light or dark. *)
Lemma allSet_getCell (n : Z) (m : matrix) (r c : Z) :
  square n m -> allSet m = true -> 0 <= r < n -> 0 <= c < n ->
  exists b, getCell m r c = Some (Some b).
Proof.
  intros [Hlen Hrows] Hall Hr Hc. unfold getCell.
  destruct (at_index_in_range m r) as [rowv Hrow]; [lia|]. rewrite Hrow.
  assert (len rowv = n) as Hrl.
  { unfold at_index in Hrow. destruct (r <? 0); [discriminate|].
    exact (Forall_lookup_1 _ _ _ _ Hrows Hrow). }
  destruct (at_index_in_range rowv c) as [x Hx]; [lia|]. rewrite Hx.
  pose proof (forallb_at_index _ _ _ _ Hall Hrow) as Hrowset. simpl in Hrowset.
  pose proof (forallb_at_index _ _ _ _ Hrowset Hx) as Hset.
  destruct x as [b|]; [eauto | discriminate].
Qed.

Lemma patterns_facts (v : Z) :
  1 <= v <= 20 ->
  exists P F0,
    placePatterns enoughFuel v (initialStore v) = Ok P /\
    Forall unset_before (log P) /\
    grid P = replay (log P) (grid (initialStore v)) /\
    timing (v * 4 + 17) (grid P) /\
    placeData enoughFuel [] P = Ok F0 /\
    square (v * 4 + 17) (grid F0) /\ allSet (grid F0) = true.
Proof.
  intros Hv.
  pose proof (for_all_versions _ patternsOk_all v Hv) as H1.
  pose proof (for_all_versions _ dataPassOk_all v Hv) as H2.
  unfold patternsOk in H1. unfold dataPassOk in H2.
  destruct (placePatterns enoughFuel v (initialStore v)) as [P|] eqn:HP;
    [|discriminate].
  destruct (placeData enoughFuel [] P) as [F0|] eqn:HF0; [|discriminate].
  apply andb_true_iff in H1 as [H1 Htim].
  apply andb_true_iff in H1 as [Hlog Hrep].
  apply andb_true_iff in H2 as [Hsq Hall].
  exists P, F0.
  split; [reflexivity|].
  split; [apply unset_before_forallb, Hlog|].
  split; [apply bool_decide_eq_true in Hrep; exact Hrep|].
  split.
  { intros i Hi.
    pose proof (forallb_seqZ _ _ _ Htim i ltac:(lia)) as Hc. simpl in Hc.
    apply andb_true_iff in Hc as [Hc1 Hc2].
    split; apply cellIs_true; assumption. }
  split; [exact HF0|].
  split; [apply squareb_square, Hsq | exact Hall].
Qed.

(** ** One run of generateQR, phase by phase *)

Lemma enoughFuel_capacity (fuel : nat) (v : Z) :
  (enoughFuel <= fuel)%nat -> 1 <= v <= 20 ->
  (9 <= fuel)%nat /\ getCapacity v * 8 <= 8 * (Z.of_nat fuel - 1).
Proof.
  unfold enoughFuel. intros Hf Hv.
  pose proof (getCapacity_bounds v Hv). lia.
Qed.

Lemma generateQR_run (fuel : nat) (data : list byte) (ecl : ErrorCorrectionLevel) :
  (enoughFuel <= fuel)%nat ->
  let v := getVersion (len data) ecl in
  exists P bits F,
    placePatterns fuel v (initialStore v) = Ok P /\
    buildBits fuel data v = Ok bits /\
    placeData fuel bits P = Ok F /\
    generateQR fuel data ecl = Ok F /\
    Forall unset_before (log P) /\
    grid P = replay (log P) (grid (initialStore v)) /\
    timing (v * 4 + 17) (grid P) /\
    extends P F /\
    square (v * 4 + 17) (grid F) /\ allSet (grid F) = true.
Proof.
  intros Hfuel v.
  pose proof (getVersion_range (len data) ecl) as Hv. fold v in Hv.
  destruct (patterns_facts v Hv)
    as (P & F0 & HP & Hlog & Hrep & Htim & HF0 & Hsq & Hall).
  destruct (enoughFuel_capacity fuel v Hfuel Hv) as [Hf9 Hcap].
  destruct (buildBits_spec fuel data v Hf9 Hcap) as (bits & Hbits & _).
  pose proof (placePatterns_mono _ _ _ _ _ Hfuel HP) as HP'.
  pose proof (placeData_mono _ _ _ _ _ Hfuel HF0) as HF0'.
  pose proof (placeData_same_shape fuel bits [] P) as Hsim.
  rewrite HF0' in Hsim.
  destruct (placeData fuel bits P) as [F|e] eqn:HF; [|contradiction].
  simpl in Hsim. unfold same_shape in Hsim.
  pose proof (placeData_extends _ _ _ _ HF) as Hext.
  exists P, bits, F.
  split; [exact HP'|].
  split; [exact Hbits|].
  split; [exact HF|].
  split.
  { unfold generateQR, applyMask. fold v. fold (initialStore v).
    rewrite HP'. cbn [bind]. unfold fillData. rewrite Hbits. cbn [bind].
    exact HF. }
  split; [exact Hlog|].
  split; [exact Hrep|].
  split; [exact Htim|].
  split; [exact Hext|].
  split.
  - apply squareb_square.
    rewrite (squareb_same_shape (v * 4 + 17) _ _ Hsim).
    pose proof (for_all_versions _ dataPassOk_all v Hv) as H2.
    unfold dataPassOk in H2. rewrite HP, HF0 in H2.
    apply andb_true_iff in H2. tauto.
  - rewrite (allSet_same_shape _ _ Hsim). exact Hall.
Qed.

(** ** Version selection against the capacity table *)

Lemma CapacityTable_max (v : Z) : 1 <= v <= 20 -> CapacityTable v <= 858.
Proof.
  intros Hv.
  assert (forallb (fun v => CapacityTable v <=? 858) versions = true) as Hall
    by (vm_compute; reflexivity).
  pose proof (for_all_versions _ Hall v Hv) as H. simpl in H. lia.
Qed.

Lemma getVersion_spec (L : Z) (ecl : ErrorCorrectionLevel) :
  let v := getVersion L ecl in
  1 <= v <= 20 /\
  (forall w, 1 <= w < v -> CapacityTable w < L) /\
  (L <= CapacityTable v \/ (v = 20 /\ CapacityTable 20 < L)).
Proof.
  intros v. pose proof (getVersion_range L ecl) as Hv. fold v in Hv.
  split; [exact Hv|].
  assert (forall w, 1 <= w <= 20 -> caps_ge (w - 1) L = false ->
                    CapacityTable w < L) as Hlt.
  { intros w Hw Hc. rewrite caps_ge_CapacityTable in Hc by exact Hw.
    destruct (Z.geb_spec (CapacityTable w) L); [discriminate | lia]. }
  unfold v, getVersion in *.
  destruct (getVersion_from_spec 20 1 L) as [(Hr & Hge & Hsm) | (Hr & Hsm)].
  - split.
    + intros w Hw. apply Hlt; [lia | apply Hsm; lia].
    + left. rewrite caps_ge_CapacityTable in Hge by lia.
      destruct (Z.geb_spec (CapacityTable (getVersion_from 20 1 L)) L);
        [lia | discriminate].
  - split.
    + intros w Hw. apply Hlt; [lia | apply Hsm; lia].
    + right. split; [exact Hr|]. apply Hlt; [lia | apply Hsm; lia].
Qed.

Lemma getVersion_le (a b : Z) (ecl1 ecl2 : ErrorCorrectionLevel) :
  a <= b -> getVersion a ecl1 <= getVersion b ecl2.
Proof.
  intros Hab.
  destruct (getVersion_spec a ecl1) as (Hva & Hsma & _).
  destruct (getVersion_spec b ecl2) as (Hvb & _ & [Hfit | [Hb20 _]]); [|lia].
  destruct (Z.le_gt_cases (getVersion a ecl1) (getVersion b ecl2)) as [|Hgt];
    [assumption|].
  specialize (Hsma (getVersion b ecl2) ltac:(lia)). lia.
Qed.

Lemma getVersion_oversized (L : Z) (ecl : ErrorCorrectionLevel) :
  CapacityTable 20 < L -> getVersion L ecl = 20.
Proof.
  intros HL.
  destruct (getVersion_spec L ecl) as (Hv & _ & [Hfit | [H20 _]]); [|exact H20].
  pose proof (CapacityTable_max _ Hv).
  change (CapacityTable 20) with 858 in HL. lia.
Qed.

(** The level is passed to getVersion and, as [EC_LEVELS[ecl]], to
    applyMask; neither uses it. *)
Lemma generateQR_ignores_ecl (fuel : nat) (data : list byte)
    (ecl1 ecl2 : ErrorCorrectionLevel) :
  generateQR fuel data ecl1 = generateQR fuel data ecl2.
Proof. unfold generateQR, applyMask, getVersion. reflexivity. Qed.

(** The grid generateQR returns is the full square of its version. *)
Lemma generateQR_grid (fuel : nat) (data : list byte) (ecl : ErrorCorrectionLevel) :
  (enoughFuel <= fuel)%nat ->
  exists st,
    generateQR fuel data ecl = Ok st /\
    square (getVersion (len data) ecl * 4 + 17) (grid st) /\
    allSet (grid st) = true.
Proof.
  intros Hfuel.
  destruct (generateQR_run fuel data ecl Hfuel)
    as (P & bits & F & _ & _ & _ & Hrun & _ & _ & _ & _ & Hsq & Hall).
  exists F. auto.
Qed.

Lemma gridSide_generateQR (fuel : nat) (data : list byte)
    (ecl : ErrorCorrectionLevel) :
  (enoughFuel <= fuel)%nat ->
  gridSide (generateQR fuel data ecl)
  = Some (getVersion (len data) ecl * 4 + 17).
Proof.
  intros Hfuel.
  destruct (generateQR_grid fuel data ecl Hfuel) as (st & Hrun & [Hside _] & _).
  rewrite Hrun. simpl. rewrite Hside. reflexivity.
Qed.

Lemma getAlignmentPos_total (fuel : nat) (v : Z) :
  (enoughFuel <= fuel)%nat -> 1 <= v <= 20 ->
  exists pos, getAlignmentPos fuel v = Ok pos.
Proof.
  intros Hfuel Hv.
  assert (forallb (fun v => match getAlignmentPos enoughFuel v with
                            | Ok _ => true
                            | Err _ => false
                            end) versions = true) as Hall
    by (vm_compute; reflexivity).
  pose proof (for_all_versions _ Hall v Hv) as H. simpl in H.
  revert H. unfold getAlignmentPos. destruct (v =? 1); [eauto|].
  destruct (alignLoop enoughFuel _ _ _ _) as [pos|] eqn:Hpos; [|discriminate].
  intros _. exists pos. eapply alignLoop_mono; eauto.
Qed.

(** ** The model on concrete inputs *)

Example getVersion_examples :
  (fun L => getVersion L EclM) <$> [0; 1; 17; 18; 200; 230; 231; 858; 859]
  = [1; 1; 1; 2; 9; 9; 10; 20; 20].
Proof. vm_compute. reflexivity. Qed.

Example getCapacity_examples :
  getCapacity <$> versions
  = [18; 30; 57; 88; 123; 162; 173; 220; 271; 326;
     385; 448; 515; 570; 645; 724; 807; 894; 985; 1080].
Proof. vm_compute. reflexivity. Qed.

Example getAlignmentPos_examples :
  getAlignmentPos enoughFuel <$> [1; 2; 7; 14; 20]
  = [Ok []; Ok [18; 6]; Ok [22; 38; 6]; Ok [26; 46; 66; 6]; Ok [34; 62; 90; 6]].
Proof. vm_compute. reflexivity. Qed.

(** The bit stream of the one-byte payload "A" at version 1: mode 0100,
    count 1, the byte 0x41, four terminator bits, then fifteen padding bytes
    0xEC, 0x11, 0xEC, ... up to the 144 bits of the capacity. *)
Example buildBits_A :
  buildBits enoughFuel ["A"%byte] 1
  = Ok ([0; 1; 0; 0] ++ [0; 0; 0; 0; 0; 0; 0; 1] ++ [0; 1; 0; 0; 0; 0; 0; 1]
        ++ [0; 0; 0; 0]
        ++ mjoin ((fun k : nat => if Nat.even k
                                  then [1; 1; 1; 0; 1; 1; 0; 0]
                                  else [0; 0; 0; 1; 0; 0; 0; 1]) <$> seq 0 15)).
Proof. vm_compute. reflexivity. Qed.

(** The finder pattern and its light border in the top-left corner. *)
Example finder_corner_A :
  corner (generateQR enoughFuel ["A"%byte] EclM)
  = [[1; 1; 1; 1; 1; 1; 1; 0];
     [1; 0; 0; 0; 0; 0; 1; 0];
     [1; 0; 1; 1; 1; 0; 1; 0];
     [1; 0; 1; 1; 1; 0; 1; 0];
     [1; 0; 1; 1; 1; 0; 1; 0];
     [1; 0; 0; 0; 0; 0; 1; 0];
     [1; 1; 1; 1; 1; 1; 1; 0];
     [0; 0; 0; 0; 0; 0; 0; 0]].
Proof. vm_compute. reflexivity. Qed.

(** * The claims *)

(** C1, as the code has it.  A payload longer than CapacityTable[20] = 858
    bytes is not rejected: getVersion falls through its scan and returns 20,
    and generateQR returns a full 97 x 97 grid.  No failure is reported. *)
Theorem oversized_payload_clamped (fuel : nat) (data : list byte)
    (ecl : ErrorCorrectionLevel) :
  (enoughFuel <= fuel)%nat ->
  CapacityTable 20 < len data ->
  getVersion (len data) ecl = 20 /\
  exists st, generateQR fuel data ecl = Ok st /\ square 97 (grid st).
Proof.
  intros Hfuel Hbig.
  pose proof (getVersion_oversized _ ecl Hbig) as Hv.
  split; [exact Hv|].
  destruct (generateQR_grid fuel data ecl Hfuel) as (st & Hrun & Hsq & _).
  rewrite Hv in Hsq. exists st. split; [exact Hrun | exact Hsq].
Qed.

Lemma oversized_payload_clamped_witness :
  getVersion (len oversizedPayload) EclM = 20 /\
  exists st, generateQR enoughFuel oversizedPayload EclM = Ok st /\
             square 97 (grid st).
Proof.
  apply (oversized_payload_clamped enoughFuel oversizedPayload EclM).
  - unfold enoughFuel. lia.
  - vm_compute. reflexivity.
Defined.

(** C1 as stated fails: for a payload of 859 bytes, one more than
    CapacityTable[20], generateQR selects version 20 and returns a grid of
    side 97 instead of reporting a failure. *)
Lemma oversized_payload_not_rejected :
  CapacityTable 20 < len oversizedPayload /\
  getVersion (len oversizedPayload) EclM = 20 /\
  gridSide (generateQR enoughFuel oversizedPayload EclM) = Some 97.
Proof.
  split; [vm_compute; reflexivity|].
  split; [vm_compute; reflexivity|].
  rewrite gridSide_generateQR by (unfold enoughFuel; lia).
  vm_compute. reflexivity.
Qed.

(** C2.  For a payload length L with 0 <= L <= CapacityTable[20], getVersion
    returns the smallest v in 1..20 with CapacityTable[v] >= L; a payload of
    a single byte selects version 1 and its grid has side 21. *)
Theorem getVersion_smallest (L : Z) (ecl : ErrorCorrectionLevel)
    (b : byte) (fuel : nat) :
  0 <= L <= CapacityTable 20 ->
  (enoughFuel <= fuel)%nat ->
  (let v := getVersion L ecl in
   1 <= v <= 20 /\ L <= CapacityTable v /\
   forall w, 1 <= w < v -> CapacityTable w < L) /\
  (getVersion (len [b]) ecl = 1 /\
   exists st, generateQR fuel [b] ecl = Ok st /\ square 21 (grid st)).
Proof.
  intros HL Hfuel. split.
  - destruct (getVersion_spec L ecl) as (Hv & Hsm & Hfit).
    cbv zeta. split; [exact Hv|]. split; [|exact Hsm].
    destruct Hfit as [Hfit | [_ Hbig]]; [exact Hfit | lia].
  - split; [reflexivity|].
    destruct (generateQR_grid fuel [b] ecl Hfuel) as (st & Hrun & Hsq & _).
    exists st. split; [exact Hrun | exact Hsq].
Qed.

Lemma getVersion_smallest_witness :
  (let v := getVersion 200 EclM in
   1 <= v <= 20 /\ 200 <= CapacityTable v /\
   forall w, 1 <= w < v -> CapacityTable w < 200) /\
  (getVersion (len ["A"%byte]) EclM = 1 /\
   exists st, generateQR enoughFuel ["A"%byte] EclM = Ok st /\
              square 21 (grid st)).
Proof.
  apply (getVersion_smallest 200 EclM "A"%byte enoughFuel).
  - vm_compute. split; discriminate.
  - unfold enoughFuel. lia.
Defined.

(** C3, as the code has it.  The ninth entry of the capacity table, 230, is
    the first that covers 200 bytes: every payload of exactly 200 bytes is
    encoded at version 9, in a grid of side 4 * 9 + 17 = 53. *)
Theorem payload_200_version_9 (fuel : nat) (data : list byte)
    (ecl : ErrorCorrectionLevel) :
  (enoughFuel <= fuel)%nat ->
  len data = 200 ->
  getVersion (len data) ecl = 9 /\
  exists st, generateQR fuel data ecl = Ok st /\ square 53 (grid st).
Proof.
  intros Hfuel Hlen.
  assert (getVersion (len data) ecl = 9) as Hv
    by (rewrite Hlen; vm_compute; reflexivity).
  split; [exact Hv|].
  destruct (generateQR_grid fuel data ecl Hfuel) as (st & Hrun & Hsq & _).
  rewrite Hv in Hsq. exists st. split; [exact Hrun | exact Hsq].
Qed.

Lemma payload_200_version_9_witness :
  getVersion (len payload200) EclM = 9 /\
  exists st, generateQR enoughFuel payload200 EclM = Ok st /\
             square 53 (grid st).
Proof.
  apply (payload_200_version_9 enoughFuel payload200 EclM).
  - unfold enoughFuel. lia.
  - vm_compute. reflexivity.
Defined.

(** C3 as stated fails: a payload of 200 bytes is encoded at version 9, not
    10, and its grid has side 53, not 57. *)
Lemma payload_200_not_version_10 :
  len payload200 = 200 /\
  getVersion (len payload200) EclM = 9 /\
  gridSide (generateQR enoughFuel payload200 EclM) = Some 53.
Proof.
  split; [vm_compute; reflexivity|].
  split; [vm_compute; reflexivity|].
  rewrite gridSide_generateQR by (unfold enoughFuel; lia).
  vm_compute. reflexivity.
Qed.

Lemma header_and_data_fit (v L : Z) :
  1 <= v <= 20 -> L <= CapacityTable v ->
  L <> 17 -> ~ (29 <= L <= 32) ->
  L + headerBytes v <= getCapacity v.
Proof.
  intros Hv HL H17 H29.
  assert (forallb (fun v =>
            (if v =? 1 then 16 else if v =? 2 then 28 else CapacityTable v)
            + headerBytes v <=? getCapacity v) versions = true) as Hall
    by (vm_compute; reflexivity).
  pose proof (for_all_versions _ Hall v Hv) as H. simpl in H.
  apply Z.leb_le in H.
  destruct (Z.eqb_spec v 1) as [->|_].
  - change (CapacityTable 1) with 17 in HL. lia.
  - destruct (Z.eqb_spec v 2) as [->|_]; [|lia].
    change (CapacityTable 2) with 32 in HL. lia.
Qed.

(** C4, as the code has it.  For a payload within the capacity-table entry
    of its selected version, other than one of 17 bytes or of 29 to 32
    bytes, the bit stream built by fillData (mode indicator, count field,
    data, terminator, padding) has exactly the length getCapacity gives
    that version, in bits. *)
Theorem bit_stream_fills_capacity (fuel : nat) (data : list byte)
    (ecl : ErrorCorrectionLevel) :
  (enoughFuel <= fuel)%nat ->
  len data <= CapacityTable (getVersion (len data) ecl) ->
  len data <> 17 -> ~ (29 <= len data <= 32) ->
  exists bits,
    buildBits fuel data (getVersion (len data) ecl) = Ok bits /\
    len bits = getCapacity (getVersion (len data) ecl) * 8.
Proof.
  intros Hfuel HL H17 H29.
  pose proof (getVersion_range (len data) ecl) as Hv.
  destruct (enoughFuel_capacity fuel _ Hfuel Hv) as [Hf9 Hcap].
  destruct (buildBits_spec fuel data _ Hf9 Hcap) as (bits & Hbits & Hlen).
  exists bits. split; [exact Hbits|].
  pose proof (header_and_data_fit _ _ Hv HL H17 H29). lia.
Qed.

Lemma bit_stream_fills_capacity_witness :
  exists bits,
    buildBits enoughFuel payload200 (getVersion (len payload200) EclM) = Ok bits /\
    len bits = getCapacity (getVersion (len payload200) EclM) * 8.
Proof.
  apply (bit_stream_fills_capacity enoughFuel payload200 EclM).
  - unfold enoughFuel. lia.
  - vm_compute. discriminate.
  - vm_compute. discriminate.
  - vm_compute. intros [_ H]. apply H. reflexivity.
Defined.

(** C4 as stated fails: a payload of 17 bytes selects version 1, whose
    table entry is 17, but its bit stream has 4 + 8 + 136 bits, 152 after
    the terminator, while getCapacity gives version 1 only 18 bytes, 144
    bits. *)
Lemma bit_stream_overflows_version_1 :
  getVersion (len fullVersion1Payload) EclM = 1 /\
  len fullVersion1Payload <= CapacityTable 1 /\
  getCapacity 1 * 8 = 144 /\
  exists bits,
    buildBits enoughFuel fullVersion1Payload 1 = Ok bits /\ len bits = 152.
Proof.
  split; [vm_compute; reflexivity|].
  split; [vm_compute; discriminate|].
  split; [vm_compute; reflexivity|].
  eexists. split; vm_compute; reflexivity.
Qed.

(** C5.  The grid generateQR returns is square, of side 4 * version + 17,
    and every module of it is light or dark.  This holds for every payload,
    in particular for those within capacity. *)
Theorem grid_square_and_full (fuel : nat) (data : list byte)
    (ecl : ErrorCorrectionLevel) :
  (enoughFuel <= fuel)%nat ->
  exists st,
    generateQR fuel data ecl = Ok st /\
    square (4 * getVersion (len data) ecl + 17) (grid st) /\
    forall r c,
      0 <= r < 4 * getVersion (len data) ecl + 17 ->
      0 <= c < 4 * getVersion (len data) ecl + 17 ->
      exists b, getCell (grid st) r c = Some (Some b).
Proof.
  intros Hfuel.
  destruct (generateQR_grid fuel data ecl Hfuel) as (st & Hrun & Hsq & Hall).
  rewrite (Z.mul_comm _ 4) in Hsq.
  exists st. split; [exact Hrun|]. split; [exact Hsq|].
  intros r c Hr Hc. eapply allSet_getCell; eauto.
Qed.

Lemma grid_square_and_full_witness :
  exists st,
    generateQR enoughFuel ["A"%byte] EclM = Ok st /\
    square (4 * getVersion (len ["A"%byte]) EclM + 17) (grid st) /\
    forall r c,
      0 <= r < 4 * getVersion (len ["A"%byte]) EclM + 17 ->
      0 <= c < 4 * getVersion (len ["A"%byte]) EclM + 17 ->
      exists b, getCell (grid st) r c = Some (Some b).
Proof.
  apply (grid_square_and_full enoughFuel ["A"%byte] EclM).
  unfold enoughFuel. lia.
Defined.

(** C6, as the code has it.  Throughout one call of generateQR first writer
    wins up to the mask.  The record of assignments accounts for the whole
    grid.  Every assignment of the finder, timing and alignment stamps found
    its module unset.  The data pass adds to the record the assignments of a
    sequence of visits, each to a module that was unset, and nothing else:
    so every assignment of the call found its module unset, or is the mask
    flip of line 122, made right after the assignment of line 120 to the
    same module.  And the data pass leaves every module set by the patterns
    as it was. *)
Theorem first_writer_wins_up_to_mask (fuel : nat) (data : list byte)
    (ecl : ErrorCorrectionLevel) :
  (enoughFuel <= fuel)%nat ->
  exists P bits F visits,
    placePatterns fuel (getVersion (len data) ecl)
      (initialStore (getVersion (len data) ecl)) = Ok P /\
    buildBits fuel data (getVersion (len data) ecl) = Ok bits /\
    placeData fuel bits P = Ok F /\
    generateQR fuel data ecl = Ok F /\
    grid F = replay (log F) (createMatrix (getVersion (len data) ecl * 4 + 17)) /\
    Forall unset_before (log P) /\
    log F = visitLog visits ++ log P /\
    firstWins (log F) /\
    forall r c b,
      getCell (grid P) r c = Some (Some b) ->
      getCell (grid F) r c = Some (Some b).
Proof.
  intros Hfuel.
  destruct (generateQR_run fuel data ecl Hfuel)
    as (P & bits & F & HP & Hbits & HF & Hrun & Hlog & Hrep & _ & Hext & _).
  destruct (placeData_placed _ _ _ _ HF) as (_ & visits & Hnew & Hgrid & _).
  exists P, bits, F, visits.
  repeat (split; [assumption|]).
  split; [|split; [exact Hlog|]].
  { rewrite Hgrid, Hrep, Hnew. symmetry. apply replay_app. }
  split; [exact Hnew|].
  split; [|exact (ext_keep _ _ Hext)].
  rewrite Hnew. apply firstWins_visits, firstWins_unset, Hlog.
Qed.

Lemma first_writer_wins_up_to_mask_witness :
  exists P bits F visits,
    placePatterns enoughFuel (getVersion (len payload200) EclM)
      (initialStore (getVersion (len payload200) EclM)) = Ok P /\
    buildBits enoughFuel payload200 (getVersion (len payload200) EclM) = Ok bits /\
    placeData enoughFuel bits P = Ok F /\
    generateQR enoughFuel payload200 EclM = Ok F /\
    grid F = replay (log F) (createMatrix (getVersion (len payload200) EclM * 4 + 17)) /\
    Forall unset_before (log P) /\
    log F = visitLog visits ++ log P /\
    firstWins (log F) /\
    forall r c b,
      getCell (grid P) r c = Some (Some b) ->
      getCell (grid F) r c = Some (Some b).
Proof.
  apply (first_writer_wins_up_to_mask enoughFuel payload200 EclM).
  unfold enoughFuel. lia.
Defined.

(** C6 as stated fails: the data pass assigns twice to a module whose row
    plus column is even.  For the payload "A" (version 1, 202 assignments by
    the patterns) the 203rd assignment of the call sets the module in the
    bottom-right corner, unset until then, to light, which is bit 0 of the
    stream, and the 204th overwrites it with dark. *)
Lemma mask_flip_overwrites :
  exists F,
    generateQR enoughFuel ["A"%byte] EclM = Ok F /\
    reverse (log F) !! 202%nat = Some (Write 20 20 None false) /\
    reverse (log F) !! 203%nat = Some (Write 20 20 (Some false) true).
Proof.
  eexists. split; [vm_compute; reflexivity|].
  split; vm_compute; reflexivity.
Qed.

(** C7.  In the grid generateQR returns, the modules of row 6 and of
    column 6 at every index i from 8 to N - 9 are dark when i is even and
    light when i is odd, whatever the payload. *)
Theorem timing_pattern_preserved (fuel : nat) (data : list byte)
    (ecl : ErrorCorrectionLevel) :
  (enoughFuel <= fuel)%nat ->
  exists st,
    generateQR fuel data ecl = Ok st /\
    forall i,
      8 <= i <= 4 * getVersion (len data) ecl + 17 - 9 ->
      getCell (grid st) 6 i = Some (Some (Z.even i)) /\
      getCell (grid st) i 6 = Some (Some (Z.even i)).
Proof.
  intros Hfuel.
  destruct (generateQR_run fuel data ecl Hfuel)
    as (P & bits & F & _ & _ & _ & Hrun & _ & _ & Htim & Hext & _).
  exists F. split; [exact Hrun|].
  intros i Hi. destruct (Htim i ltac:(lia)) as [H1 H2].
  split; apply (ext_keep _ _ Hext); assumption.
Qed.

Lemma timing_pattern_preserved_witness :
  exists st,
    generateQR enoughFuel payload200 EclM = Ok st /\
    forall i,
      8 <= i <= 4 * getVersion (len payload200) EclM + 17 - 9 ->
      getCell (grid st) 6 i = Some (Some (Z.even i)) /\
      getCell (grid st) i 6 = Some (Some (Z.even i)).
Proof.
  apply (timing_pattern_preserved enoughFuel payload200 EclM).
  unfold enoughFuel. lia.
Defined.

(** C8.  The selected version is monotone in the payload length: if A has
    at most as many bytes as B, the version selected for A is at most the
    version selected for B. *)
Theorem getVersion_monotone (A B : list byte) (eclA eclB : ErrorCorrectionLevel) :
  len A <= len B ->
  getVersion (len A) eclA <= getVersion (len B) eclB.
Proof. apply getVersion_le. Qed.

Lemma getVersion_monotone_witness :
  getVersion (len fullVersion1Payload) EclM <= getVersion (len payload200) EclM.
Proof.
  apply (getVersion_monotone fullVersion1Payload payload200 EclM EclM).
  vm_compute. discriminate.
Defined.

(** C9.  For any two error-correction levels generateQR produces the same
    grid, module for module. *)
Theorem grid_independent_of_ecl (fuel : nat) (data : list byte)
    (ecl1 ecl2 : ErrorCorrectionLevel) :
  (enoughFuel <= fuel)%nat ->
  exists st,
    generateQR fuel data ecl1 = Ok st /\ generateQR fuel data ecl2 = Ok st.
Proof.
  intros Hfuel.
  destruct (generateQR_grid fuel data ecl1 Hfuel) as (st & Hrun & _).
  exists st. split; [exact Hrun|].
  rewrite <- (generateQR_ignores_ecl fuel data ecl1 ecl2). exact Hrun.
Qed.

Lemma grid_independent_of_ecl_witness :
  exists st,
    generateQR enoughFuel payload200 EclL = Ok st /\
    generateQR enoughFuel payload200 EclH = Ok st.
Proof.
  apply (grid_independent_of_ecl enoughFuel payload200 EclL EclH).
  unfold enoughFuel. lia.
Defined.

(** C10.  generateQR terminates with a grid on every payload, in particular
    on those within capacity: the version scan returns a version in 1..20,
    and with the fuel [enoughFuel] or more the alignment-position loop, the
    terminator and padding loops and the zigzag traversal all finish. *)
Theorem generateQR_terminates (fuel : nat) (data : list byte)
    (ecl : ErrorCorrectionLevel) :
  (enoughFuel <= fuel)%nat ->
  1 <= getVersion (len data) ecl <= 20 /\
  (exists pos, getAlignmentPos fuel (getVersion (len data) ecl) = Ok pos) /\
  exists P bits F,
    placePatterns fuel (getVersion (len data) ecl)
      (initialStore (getVersion (len data) ecl)) = Ok P /\
    buildBits fuel data (getVersion (len data) ecl) = Ok bits /\
    placeData fuel bits P = Ok F /\
    generateQR fuel data ecl = Ok F.
Proof.
  intros Hfuel.
  pose proof (getVersion_range (len data) ecl) as Hv.
  split; [exact Hv|].
  split; [apply getAlignmentPos_total; assumption|].
  destruct (generateQR_run fuel data ecl Hfuel)
    as (P & bits & F & HP & Hbits & HF & Hrun & _).
  exists P, bits, F. auto.
Qed.

Lemma generateQR_terminates_witness :
  1 <= getVersion (len payload200) EclM <= 20 /\
  (exists pos, getAlignmentPos enoughFuel (getVersion (len payload200) EclM) = Ok pos) /\
  exists P bits F,
    placePatterns enoughFuel (getVersion (len payload200) EclM)
      (initialStore (getVersion (len payload200) EclM)) = Ok P /\
    buildBits enoughFuel payload200 (getVersion (len payload200) EclM) = Ok bits /\
    placeData enoughFuel bits P = Ok F /\
    generateQR enoughFuel payload200 EclM = Ok F.
Proof.
  apply (generateQR_terminates enoughFuel payload200 EclM).
  unfold enoughFuel. lia.
Defined.

(** * Further properties *)

(** ** The sites written do not depend on the colours *)

Lemma setCell_same_sites (st1 st2 : store) (r c : Z) (b1 b2 : bool) :
  same_sites st1 st2 ->
  rel_result same_sites (setCell st1 r c b1) (setCell st2 r c b2).
Proof.
  intros [Hshape Hlog].
  pose proof (setCell_same_shape st1 st2 r c b1 b2 Hshape) as Hrel.
  destruct (setCell st1 r c b1) as [st1'|e1] eqn:H1,
           (setCell st2 r c b2) as [st2'|e2] eqn:H2;
    simpl in *; try contradiction; [|exact Hrel].
  split; [exact Hrel|].
  destruct (setCell_Ok _ _ _ _ _ H1) as (? & ? & _ & _ & ->).
  destruct (setCell_Ok _ _ _ _ _ H2) as (? & ? & _ & _ & ->).
  simpl. f_equal. exact Hlog.
Qed.

Lemma placeCell_same_sites (bits1 bits2 : list Z) (row cc : Z)
    (s1 s2 : store * Z) :
  same_sites1 s1 s2 ->
  rel_result same_sites1 (placeCell bits1 row cc s1) (placeCell bits2 row cc s2).
Proof.
  destruct s1 as [st1 i1], s2 as [st2 i2]. unfold same_sites1. simpl.
  intros H. pose proof (same_shape_row _ _ row (proj1 H)) as Hr.
  destruct (at_index (grid st1) row) as [row1|], (at_index (grid st2) row) as [row2|];
    simpl in Hr; try discriminate; [|reflexivity].
  injection Hr as Hr. pose proof (same_row_cell _ _ cc Hr) as Hc.
  destruct (at_index row1 cc) as [[x1|]|], (at_index row2 cc) as [[x2|]|];
    simpl in Hc; try discriminate; try exact H.
  destruct (if i1 <? len bits1 then _ else _) as [b1 j1].
  destruct (if i2 <? len bits2 then _ else _) as [b2 j2].
  eapply rel_result_bind; [apply setCell_same_sites, H|].
  intros a1 a2 Ha.
  eapply rel_result_bind; [|intros a1' a2' Ha'; exact Ha'].
  destruct (Z.rem (row + cc) 2 =? 0); [apply setCell_same_sites, Ha | exact Ha].
Qed.

Lemma rowLoop_same_sites (fuel : nat) (bits1 bits2 : list Z) (size dir col : Z) :
  forall row s1 s2, same_sites1 s1 s2 ->
    rel_result same_sites1 (rowLoop fuel bits1 size dir col row s1)
                           (rowLoop fuel bits2 size dir col row s2).
Proof.
  induction fuel as [|f IH]; intros row s1 s2 H; cbn [rowLoop]; [reflexivity|].
  destruct ((row >=? 0) && (row <? size)); [|exact H].
  eapply rel_result_bind; [|intros a1 a2 Ha; apply IH, Ha].
  apply forEach_rel; [|exact H].
  intros c a1 a2 Ha. apply placeCell_same_sites, Ha.
Qed.

Lemma colLoop_same_sites (fuel : nat) (bits1 bits2 : list Z) (size : Z) :
  forall dir col s1 s2, same_sites1 s1 s2 ->
    rel_result same_sites1 (colLoop fuel bits1 size dir col s1)
                           (colLoop fuel bits2 size dir col s2).
Proof.
  induction fuel as [|f IH]; intros dir col s1 s2 H; cbn [colLoop]; [reflexivity|].
  destruct (col >? 0); [|exact H].
  eapply rel_result_bind; [|intros a1 a2 Ha; apply IH, Ha].
  apply rowLoop_same_sites, H.
Qed.

Lemma placeData_same_sites (fuel : nat) (bits1 bits2 : list Z) (st : store) :
  rel_result same_sites (placeData fuel bits1 st) (placeData fuel bits2 st).
Proof.
  unfold placeData.
  eapply rel_result_bind.
  - apply colLoop_same_sites. split; reflexivity.
  - intros a1 a2 Ha. exact Ha.
Qed.

(** ** The contents of the bit stream *)

Lemma foldl_push {A : Type} (f : A -> Z) (l : list A) :
  forall bits, foldl (fun bits i => bits ++ [f i]) bits l = bits ++ (f <$> l).
Proof.
  induction l as [|x l IH]; intros bits; simpl.
  - rewrite app_nil_r. reflexivity.
  - rewrite IH, <- app_assoc. reflexivity.
Qed.

Lemma pushBits_app (x hi : Z) (bits : list Z) :
  pushBits x hi bits = bits ++ bitsOf x hi.
Proof. unfold pushBits, bitsOf. apply foldl_push. Qed.

Lemma data_fold_app (data : list byte) :
  forall bits,
    foldl (fun bits b => pushBits (byteVal b) 7 bits) bits data
    = bits ++ dataBits data.
Proof.
  unfold dataBits. induction data as [|b data IH]; intros bits; simpl.
  - rewrite app_nil_r. reflexivity.
  - rewrite IH, pushBits_app, <- app_assoc. reflexivity.
Qed.

Lemma len_bitsOf (x hi : Z) : -1 <= hi -> len (bitsOf x hi) = hi + 1.
Proof.
  intros Hhi. unfold bitsOf, len. rewrite length_fmap.
  apply (len_countdown hi Hhi).
Qed.

Lemma len_app {A : Type} (l1 l2 : list A) : len (l1 ++ l2) = len l1 + len l2.
Proof. unfold len. rewrite length_app. lia. Qed.

Lemma len_dataBits (data : list byte) : len (dataBits data) = 8 * len data.
Proof.
  unfold dataBits. induction data as [|b data IH]; cbn [flat_map];
    [reflexivity|].
  rewrite len_app, IH, len_bitsOf by lia. unfold len; simpl. lia.
Qed.

Lemma len_streamHead (data : list byte) (version : Z) :
  len (streamHead data version) = 4 + countBitsOf version + 8 * len data.
Proof.
  unfold streamHead. rewrite !len_app, len_dataBits, len_bitsOf.
  - unfold len; simpl. lia.
  - unfold countBitsOf. destruct (version <? 10); lia.
Qed.

(** The terminator loop appends zeros up to the next multiple of 8. *)
Lemma terminatorLoop_zeros (k : nat) :
  forall (fuel : nat) (bits : list Z),
    (forall j, 0 <= j < Z.of_nat k -> (len bits + j) mod 8 <> 0) ->
    (len bits + Z.of_nat k) mod 8 = 0 ->
    (k < fuel)%nat ->
    terminatorLoop fuel bits = Ok (bits ++ replicate k 0).
Proof.
  induction k as [|k IH]; intros fuel bits Hbefore Hat Hfuel;
    (destruct fuel as [|f]; [lia|]); cbn [terminatorLoop];
    assert (0 <= len bits) as Hnn by (unfold len; lia);
    rewrite Z.rem_mod_nonneg by lia.
  - rewrite Z.add_0_r in Hat. rewrite Hat. simpl. rewrite app_nil_r. reflexivity.
  - specialize (Hbefore 0 ltac:(lia)) as H0. rewrite Z.add_0_r in H0.
    destruct (Z.eqb_spec (len bits mod 8) 0) as [|_]; [contradiction|].
    rewrite (IH f (bits ++ [0])).
    + rewrite <- app_assoc. reflexivity.
    + intros j Hj. rewrite len_app_one.
      replace (len bits + 1 + j) with (len bits + (j + 1)) by lia.
      apply Hbefore. lia.
    + rewrite len_app_one. rewrite <- Hat. f_equal. lia.
    + lia.
Qed.

Lemma padByte_app (idx : list Z) (pad capacity : Z) :
  forall bits,
    len bits + len idx <= capacity ->
    padByte idx pad capacity bits = bits ++ (bitAt pad <$> idx).
Proof.
  induction idx as [|i idx IH]; intros bits Hfit; simpl.
  - rewrite app_nil_r. reflexivity.
  - assert (len (i :: idx) = len idx + 1) as Hl by (unfold len; simpl; lia).
    assert (0 <= len idx) by (unfold len; lia).
    destruct (Z.ltb_spec (len bits) capacity); [|lia].
    rewrite IH by (rewrite len_app_one; lia).
    rewrite <- app_assoc. reflexivity.
Qed.

(** The padding loop appends whole bytes, 0xEC and 0x11 in turn. *)
Lemma padLoop_bytes (k : nat) (capacity : Z) :
  forall (fuel : nat) (pad : Z) (bits : list Z),
    capacity - len bits = 8 * Z.of_nat k ->
    (k < fuel)%nat ->
    padLoop fuel pad capacity bits = Ok (bits ++ padBytes k pad).
Proof.
  induction k as [|k IH]; intros fuel pad bits Hgap Hfuel;
    (destruct fuel as [|f]; [lia|]); cbn [padLoop].
  - destruct (Z.ltb_spec (len bits) capacity); [lia|].
    simpl. rewrite app_nil_r. reflexivity.
  - destruct (Z.ltb_spec (len bits) capacity); [|lia].
    rewrite padByte_app by (rewrite len_countdown; lia).
    fold (bitsOf pad 7).
    rewrite (IH f).
    + simpl. rewrite <- app_assoc. reflexivity.
    + rewrite len_app, len_bitsOf; lia.
    + lia.
Qed.

Lemma padLoop_full (fuel : nat) (pad capacity : Z) (bits : list Z) :
  capacity <= len bits -> (0 < fuel)%nat ->
  padLoop fuel pad capacity bits = Ok bits.
Proof.
  intros Hfull Hfuel. destruct fuel as [|f]; [lia|]. cbn [padLoop].
  destruct (Z.ltb_spec (len bits) capacity); [lia | reflexivity].
Qed.

(** The whole stream: mode, count, data, four terminator bits, then as
    many padding bytes as the capacity leaves room for. *)
Lemma buildBits_contents (fuel : nat) (data : list byte) (version : Z) :
  (9 <= fuel)%nat -> getCapacity version * 8 <= 8 * (Z.of_nat fuel - 1) ->
  buildBits fuel data version = Ok (bitStream data version).
Proof.
  intros Hf Hcap. unfold buildBits, bitStream.
  fold (countBitsOf version).
  rewrite data_fold_app, pushBits_app, <- app_assoc.
  change ([0; 1; 0; 0] ++ bitsOf (len data) (countBitsOf version - 1)
          ++ dataBits data) with (streamHead data version).
  pose proof (len_streamHead data version) as Hlen.
  assert (0 <= len data) as Hnn by (unfold len; lia).
  assert (countBitsOf version = 8 * headerBytes version - 8) as Hcb.
  { unfold countBitsOf, headerBytes. destruct (version <? 10); lia. }
  assert (2 <= headerBytes version <= 3) as Hhb.
  { unfold headerBytes. destruct (version <? 10); lia. }
  rewrite (terminatorLoop_zeros 4).
  - cbn [bind replicate].
    assert (len (streamHead data version ++ [0; 0; 0; 0])
            = 8 * (len data + headerBytes version)) as Hl1.
    { rewrite len_app, Hlen, Hcb. unfold len; simpl. lia. }
    destruct (Z.le_gt_cases (getCapacity version)
                            (len data + headerBytes version)) as [Hfull|Hroom].
    + rewrite padLoop_full by lia.
      replace (Z.to_nat _) with 0%nat by lia. cbn [padBytes].
      rewrite app_nil_r. reflexivity.
    + rewrite (padLoop_bytes (Z.to_nat (getCapacity version
                                        - (len data + headerBytes version)))).
      * rewrite <- !app_assoc. reflexivity.
      * rewrite Hl1. lia.
      * lia.
  - intros j Hj. rewrite Hlen, Hcb.
    replace (4 + (8 * headerBytes version - 8) + 8 * len data + j)
      with (4 + j + (len data + headerBytes version - 1) * 8) by lia.
    rewrite Z.mod_add by lia. rewrite Z.mod_small by lia. lia.
  - rewrite Hlen, Hcb.
    replace (4 + (8 * headerBytes version - 8) + 8 * len data + Z.of_nat 4)
      with ((len data + headerBytes version) * 8) by lia.
    apply Z.mod_mul. lia.
  - lia.
Qed.

(** ** Reading the stream back *)

Lemma bitAt_testbit (x i : Z) : 0 <= i -> bitAt x i = Z.b2z (Z.testbit x i).
Proof.
  intros Hi. unfold bitAt.
  change 1 with (Z.ones 1). rewrite Z.land_ones by lia.
  change (2 ^ 1) with 2. rewrite <- Z.bit0_mod.
  rewrite Z.shiftr_spec by lia. reflexivity.
Qed.

Lemma at_index_app_l {A : Type} (l1 l2 : list A) (i : Z) :
  i < len l1 -> at_index (l1 ++ l2) i = at_index l1 i.
Proof.
  unfold at_index, len. intros Hi. destruct (Z.ltb_spec i 0); [reflexivity|].
  apply lookup_app_l. lia.
Qed.

Lemma at_index_app_r {A : Type} (l1 l2 : list A) (i : Z) :
  len l1 <= i -> at_index (l1 ++ l2) i = at_index l2 (i - len l1).
Proof.
  unfold at_index, len. intros Hi.
  destruct (Z.ltb_spec i 0); [lia|].
  destruct (Z.ltb_spec (i - Z.of_nat (length l1)) 0); [lia|].
  rewrite lookup_app_r by lia. f_equal. lia.
Qed.

Lemma at_index_bitsOf (x hi t : Z) :
  0 <= t <= hi -> at_index (bitsOf x hi) t = Some (bitAt x (hi - t)).
Proof.
  intros Ht. unfold bitsOf, countdown. rewrite at_index_fmap.
  unfold at_index. destruct (Z.ltb_spec t 0); [lia|].
  rewrite reverse_lookup by (rewrite length_seqZ; lia).
  rewrite length_seqZ.
  assert (seqZ 0 (hi + 1) !! (Z.to_nat (hi + 1) - S (Z.to_nat t))%nat
          = Some (hi - t)) as ->.
  { apply lookup_seqZ. split; lia. }
  reflexivity.
Qed.

Lemma at_index_dataBits (data : list byte) :
  forall (k : nat) (d : byte) (t : Z),
    data !! k = Some d -> 0 <= t < 8 ->
    at_index (dataBits data) (8 * Z.of_nat k + t)
    = Some (bitAt (byteVal d) (7 - t)).
Proof.
  unfold dataBits. induction data as [|b data IH]; intros k d t Hk Ht;
    [discriminate|]. cbn [flat_map].
  destruct k as [|k].
  - injection Hk as ->. rewrite at_index_app_l by (rewrite len_bitsOf; lia).
    replace (8 * Z.of_nat 0 + t) with t by lia.
    apply at_index_bitsOf. lia.
  - rewrite at_index_app_r by (rewrite len_bitsOf; lia).
    rewrite len_bitsOf by lia.
    replace (8 * Z.of_nat (S k) + t - (7 + 1)) with (8 * Z.of_nat k + t) by lia.
    apply IH; assumption.
Qed.

Lemma bitIs1_bitAt (bits : list Z) (j x i : Z) :
  0 <= i -> at_index bits j = Some (bitAt x i) ->
  bitIs1 bits j = Z.testbit x i.
Proof.
  intros Hi Hj. unfold bitIs1. rewrite Hj, bitAt_testbit by exact Hi.
  destruct (Z.testbit x i); reflexivity.
Qed.

(** Bit [t] of the count field is bit [countBits - 1 - t] of the length. *)
Lemma bitIs1_count (data : list byte) (version t : Z) (rest : list Z) :
  0 <= t < countBitsOf version ->
  bitIs1 (streamHead data version ++ rest) (4 + t)
  = Z.testbit (len data) (countBitsOf version - 1 - t).
Proof.
  intros Ht. apply bitIs1_bitAt; [lia|].
  rewrite at_index_app_l by (rewrite len_streamHead; unfold len; lia).
  unfold streamHead. rewrite at_index_app_r by (unfold len; simpl; lia).
  rewrite at_index_app_l by (rewrite len_bitsOf; unfold len; simpl; lia).
  replace (4 + t - len [0; 1; 0; 0]) with t by (unfold len; simpl; lia).
  apply at_index_bitsOf. lia.
Qed.

(** Bit [t] of byte [k] of the payload sits at 4 + countBits + 8k + t. *)
Lemma bitIs1_data (data : list byte) (version : Z) (rest : list Z)
    (k : nat) (d : byte) (t : Z) :
  data !! k = Some d -> 0 <= t < 8 ->
  bitIs1 (streamHead data version ++ rest)
         (4 + countBitsOf version + 8 * Z.of_nat k + t)
  = Z.testbit (byteVal d) (7 - t).
Proof.
  intros Hk Ht. apply bitIs1_bitAt; [lia|].
  pose proof (lookup_lt_Some _ _ _ Hk) as Hlt.
  assert (0 < countBitsOf version) as Hcb
    by (unfold countBitsOf; destruct (version <? 10); lia).
  rewrite at_index_app_l by (rewrite len_streamHead; unfold len; lia).
  unfold streamHead. rewrite at_index_app_r by (unfold len; simpl; lia).
  rewrite at_index_app_r by (rewrite len_bitsOf; unfold len; simpl; lia).
  rewrite len_bitsOf by lia.
  replace (4 + countBitsOf version + 8 * Z.of_nat k + t - len [0; 1; 0; 0]
           - (countBitsOf version - 1 + 1)) with (8 * Z.of_nat k + t)
    by (unfold len; simpl; lia).
  apply at_index_dataBits; assumption.
Qed.

Lemma low_bits_inj (n x y : Z) :
  0 <= n -> 0 <= x < 2 ^ n -> 0 <= y < 2 ^ n ->
  (forall i, 0 <= i < n -> Z.testbit x i = Z.testbit y i) ->
  x = y.
Proof.
  intros Hn Hx Hy Hbits. apply Z.bits_inj'. intros i Hi.
  destruct (Z.lt_ge_cases i n) as [Hlt|Hge]; [apply Hbits; lia|].
  rewrite <- (Z.mod_small x (2 ^ n)) by lia.
  rewrite <- (Z.mod_small y (2 ^ n)) by lia.
  rewrite !Z.mod_pow2_bits_high by lia. reflexivity.
Qed.

Lemma byteVal_range (b : byte) : 0 <= byteVal b < 2 ^ 8.
Proof.
  unfold byteVal. pose proof (Byte.to_N_bounded b) as H.
  change (2 ^ 8) with 256. lia.
Qed.

Lemma byteVal_inj (b1 b2 : byte) : byteVal b1 = byteVal b2 -> b1 = b2.
Proof.
  unfold byteVal. intros H. apply N2Z.inj in H.
  pose proof (Byte.of_to_N b1) as H1. pose proof (Byte.of_to_N b2) as H2.
  rewrite H in H1. congruence.
Qed.

(** ** The data pass of one run *)

Lemma countsOk_all : forallb countsOk versions = true.
Proof. vm_compute. reflexivity. Qed.

Lemma reverse_eq_inv {A : Type} (l1 l2 : list A) :
  reverse l1 = reverse l2 -> l1 = l2.
Proof.
  intros H. apply (f_equal reverse) in H.
  rewrite !reverse_involutive in H. exact H.
Qed.

Lemma firsts_app (l1 l2 : list write) :
  firsts (l1 ++ l2) = firsts l1 ++ firsts l2.
Proof.
  induction l1 as [|w l1 IH]; [reflexivity|]. cbn [app firsts].
  rewrite IH. destruct (isSet (w_old w)); reflexivity.
Qed.

Lemma firsts_reverse (l : list write) : firsts (reverse l) = reverse (firsts l).
Proof.
  induction l as [|w l IH]; [reflexivity|].
  rewrite reverse_cons, firsts_app, IH. cbn [firsts].
  destruct (isSet (w_old w)).
  - apply app_nil_r.
  - rewrite reverse_cons. reflexivity.
Qed.

Lemma firsts_unset (l : list write) : Forall unset_before l -> firsts l = l.
Proof.
  induction 1 as [|w l Hw _ IH]; [reflexivity|]. cbn [firsts].
  unfold unset_before in Hw. rewrite Hw, IH. reflexivity.
Qed.

(** The assignments of a sequence of visits that found their module unset
    are the first of each visit. *)
Lemma firsts_visitLog (visits : list visit) :
  site <$> firsts (visitLog visits) = reverse (visitSite <$> visits).
Proof.
  induction visits as [|[[r c] b] visits IH]; [reflexivity|].
  rewrite visitLog_cons, firsts_app, fmap_app, IH, visitLog_one.
  cbn [fmap list_fmap]. rewrite reverse_cons. f_equal.
  destruct (Z.rem (r + c) 2 =? 0); reflexivity.
Qed.

Lemma len_firsts_visitLog (visits : list visit) :
  len (firsts (visitLog visits)) = len visits.
Proof.
  pose proof (f_equal length (firsts_visitLog visits)) as H.
  rewrite length_fmap, length_reverse, length_fmap in H.
  unfold len. rewrite H. reflexivity.
Qed.

(** A visit makes one assignment, and a second one where the mask flips. *)
Lemma len_visitLog (visits : list visit) :
  len (visitLog visits) = len visits + len (flipped (visitSite <$> visits)).
Proof.
  induction visits as [|[[r c] b] visits IH]; [reflexivity|].
  rewrite visitLog_cons, len_app, IH, visitLog_one.
  cbn [fmap list_fmap flipped visitSite fst snd].
  destruct (Z.rem (r + c) 2 =? 0); unfold len; cbn [length]; lia.
Qed.

(** The modules written, with their repetitions, tell the modules
    visited. *)
Lemma visitWrites_sites_inj (vs1 vs2 : list visit) :
  site <$> flat_map visitWrites vs1 = site <$> flat_map visitWrites vs2 ->
  visitSite <$> vs1 = visitSite <$> vs2.
Proof.
  revert vs2.
  induction vs1 as [|[[r1 c1] b1] vs1 IH]; intros [|[[r2 c2] b2] vs2];
    cbn [flat_map visitWrites app]; try discriminate; [reflexivity|].
  rewrite !fmap_cons. unfold site at 1 3. cbn [w_row w_col].
  intros [= -> -> Hrest]. cbn [fmap list_fmap visitSite fst snd]. f_equal.
  apply IH.
  destruct (Z.rem (r2 + c2) 2 =? 0); cbn [app] in Hrest.
  - rewrite !fmap_cons in Hrest. injection Hrest as Hrest. exact Hrest.
  - exact Hrest.
Qed.

Lemma visitLog_sites_inj (vs1 vs2 : list visit) :
  site <$> visitLog vs1 = site <$> visitLog vs2 ->
  visitSite <$> vs1 = visitSite <$> vs2.
Proof.
  unfold visitLog. rewrite !fmap_reverse. intros H.
  apply reverse_eq_inv in H. apply visitWrites_sites_inj, H.
Qed.

(** Visits to the same modules with the same bits are the same visits. *)
Lemma visits_eq (vs1 vs2 : list visit) :
  visitSite <$> vs1 = visitSite <$> vs2 ->
  (forall (j : nat) v1 v2,
      vs1 !! j = Some v1 -> vs2 !! j = Some v2 -> visitBit v1 = visitBit v2) ->
  vs1 = vs2.
Proof.
  revert vs2. induction vs1 as [|v1 vs1 IH]; intros [|v2 vs2] Hsites Hbit;
    try discriminate; [reflexivity|].
  injection Hsites as Hr Hc Hsites.
  f_equal.
  - specialize (Hbit 0%nat v1 v2 eq_refl eq_refl).
    destruct v1 as [[r1 c1] b1], v2 as [[r2 c2] b2].
    unfold visitBit in Hbit. cbn in *. congruence.
  - apply IH; [exact Hsites|].
    intros j a b Ha Hb. exact (Hbit (S j) a b Ha Hb).
Qed.

Lemma data_pass_run (fuel : nat) (data : list byte) (ecl : ErrorCorrectionLevel) :
  (enoughFuel <= fuel)%nat ->
  let v := getVersion (len data) ecl in
  let bits := bitStream data v in
  exists P visits F,
    placePatterns enoughFuel v (initialStore v) = Ok P /\
    generateQR fuel data ecl = Ok F /\
    log F = visitLog visits ++ log P /\
    grid F = replay (visitLog visits) (grid P) /\
    Forall unset_before (log P) /\
    visitSite <$> visits = dataSites v /\
    len visits = dataModules v /\
    len (log P) = patternModules v /\
    forall (j : nat) (r c : Z) (b : bool),
      visits !! j = Some (r, c, b) ->
      b = bitIs1 bits (Z.of_nat j) /\
      getCell (grid F) r c = Some (Some (masked b r c)).
Proof.
  intros Hfuel v bits.
  pose proof (getVersion_range (len data) ecl) as Hv. fold v in Hv.
  destruct (generateQR_run fuel data ecl Hfuel)
    as (P & bits' & F & HP & Hbits & HF & Hrun & _).
  fold v in HP, Hbits.
  destruct (enoughFuel_capacity fuel v Hfuel Hv) as [Hf9 Hcap].
  assert (bits' = bits) as ->.
  { rewrite (buildBits_contents fuel data v Hf9 Hcap) in Hbits.
    injection Hbits as <-. reflexivity. }
  destruct (patterns_facts v Hv) as (P0 & F0 & HP0 & HuP & _ & _ & HF0 & _).
  assert (P0 = P) as ->.
  { pose proof (placePatterns_mono _ _ _ _ _ Hfuel HP0). congruence. }
  pose proof (placeData_mono _ _ _ _ _ Hfuel HF0) as HF0'.
  pose proof (placeData_same_sites fuel bits [] P) as Hsim.
  rewrite HF, HF0' in Hsim. destruct Hsim as [_ Hsites].
  destruct (placeData_placed _ _ _ _ HF) as (_ & visits & Hlog & Hgrid & Hval).
  destruct (placeData_placed _ _ _ _ HF0) as (_ & visits0 & Hlog0 & _).
  rewrite Hlog, Hlog0, !fmap_app in Hsites. apply app_inv_tail in Hsites.
  apply visitLog_sites_inj in Hsites.
  pose proof (for_all_versions _ countsOk_all v Hv) as Hcnt.
  unfold countsOk in Hcnt. rewrite HP0, HF0 in Hcnt.
  apply andb_true_iff in Hcnt as [Hcnt _].
  apply andb_true_iff in Hcnt as [Hcnt _].
  apply andb_true_iff in Hcnt as [Hcnt _].
  apply andb_true_iff in Hcnt as [HcP HcF].
  apply Z.eqb_eq in HcP, HcF.
  rewrite Hlog0, firsts_app, len_app, len_firsts_visitLog in HcF.
  rewrite (firsts_unset _ HuP) in HcF.
  exists P, visits, F.
  split; [exact HP0|]. split; [exact Hrun|]. split; [exact Hlog|].
  split; [exact Hgrid|]. split; [exact HuP|].
  assert (length visits = length visits0) as Hlen.
  { apply (f_equal length) in Hsites. rewrite !length_fmap in Hsites. exact Hsites. }
  split; [|split; [|split; [exact HcP | exact Hval]]].
  - unfold dataSites. rewrite HP0, HF0, Hlog0.
    rewrite length_app, Nat.add_sub, take_app_length.
    rewrite firsts_visitLog, reverse_involutive. exact Hsites.
  - unfold dataModules. unfold len in *. lia.
Qed.

Lemma masked_inj (b1 b2 : bool) (r c : Z) :
  masked b1 r c = masked b2 r c -> b1 = b2.
Proof.
  unfold masked. destruct (Z.rem (r + c) 2 =? 0), b1, b2; simpl; congruence.
Qed.

Lemma dataSites_module (fuel : nat) (data : list byte) (ecl : ErrorCorrectionLevel) :
  (enoughFuel <= fuel)%nat ->
  exists F,
    generateQR fuel data ecl = Ok F /\
    len (dataSites (getVersion (len data) ecl))
    = dataModules (getVersion (len data) ecl) /\
    forall (j : nat) (r c : Z),
      dataSites (getVersion (len data) ecl) !! j = Some (r, c) ->
      getCell (grid F) r c
      = Some (Some (masked (bitIs1 (bitStream data (getVersion (len data) ecl))
                                   (Z.of_nat j)) r c)).
Proof.
  intros Hfuel.
  destruct (data_pass_run fuel data ecl Hfuel)
    as (P & visits & F & _ & Hrun & _ & _ & _ & Hsites & Hlen & _ & Hval).
  cbv zeta in *. exists F. split; [exact Hrun|]. split.
  - rewrite <- Hsites, <- Hlen. unfold len.
    rewrite length_fmap. reflexivity.
  - intros j r c Hj. rewrite <- Hsites, list_lookup_fmap in Hj.
    destruct (visits !! j) as [[[r' c'] b]|] eqn:Hw; [|discriminate].
    injection Hj as <- <-.
    destruct (Hval j r' c' b Hw) as [-> Hcell]. exact Hcell.
Qed.

(** Two grids of the same version that agree module for module come from
    streams that agree on every bit that was placed. *)
Lemma same_grid_same_bits (fuel : nat) (d1 d2 : list byte)
    (e1 e2 : ErrorCorrectionLevel) (F1 F2 : store) :
  (enoughFuel <= fuel)%nat ->
  generateQR fuel d1 e1 = Ok F1 -> generateQR fuel d2 e2 = Ok F2 ->
  grid F1 = grid F2 ->
  getVersion (len d1) e1 = getVersion (len d2) e2 /\
  forall j, 0 <= j < dataModules (getVersion (len d1) e1) ->
    bitIs1 (bitStream d1 (getVersion (len d1) e1)) j
    = bitIs1 (bitStream d2 (getVersion (len d2) e2)) j.
Proof.
  intros Hfuel H1 H2 Hgrid.
  assert (getVersion (len d1) e1 = getVersion (len d2) e2) as Hv.
  { destruct (generateQR_grid fuel d1 e1 Hfuel) as (F1' & H1' & [Hs1 _] & _).
    destruct (generateQR_grid fuel d2 e2 Hfuel) as (F2' & H2' & [Hs2 _] & _).
    rewrite H1 in H1'. rewrite H2 in H2'.
    injection H1' as <-. injection H2' as <-.
    rewrite Hgrid in Hs1. lia. }
  split; [exact Hv|]. intros j Hj.
  destruct (dataSites_module fuel d1 e1 Hfuel) as (F1' & H1' & Hn1 & Hc1).
  destruct (dataSites_module fuel d2 e2 Hfuel) as (F2' & H2' & _ & Hc2).
  rewrite H1 in H1'. rewrite H2 in H2'.
  injection H1' as <-. injection H2' as <-.
  destruct (lookup_lt_is_Some_2 (dataSites (getVersion (len d1) e1)) (Z.to_nat j))
    as [[r c] Hsite].
  { clear - Hn1 Hj. unfold len in *. lia. }
  specialize (Hc1 _ _ _ Hsite). rewrite Hv in Hsite.
  specialize (Hc2 _ _ _ Hsite).
  rewrite Hgrid, Hc2 in Hc1. injection Hc1 as Hm.
  apply masked_inj in Hm. rewrite Z2Nat.id in Hm by lia. symmetry. exact Hm.
Qed.

Lemma countBitsOf_pos (v : Z) : 0 < countBitsOf v.
Proof. unfold countBitsOf. destruct (v <? 10); lia. Qed.

(** The grid determines the payload, for payloads within the capacity
    table. *)
Lemma grid_determines_payload (fuel : nat) (d1 d2 : list byte)
    (e1 e2 : ErrorCorrectionLevel) (F1 F2 : store) :
  (enoughFuel <= fuel)%nat ->
  len d1 <= CapacityTable 20 -> len d2 <= CapacityTable 20 ->
  generateQR fuel d1 e1 = Ok F1 -> generateQR fuel d2 e2 = Ok F2 ->
  grid F1 = grid F2 ->
  d1 = d2.
Proof.
  intros Hfuel HL1 HL2 H1 H2 Hgrid.
  destruct (same_grid_same_bits fuel d1 d2 e1 e2 F1 F2 Hfuel H1 H2 Hgrid)
    as [Hv Hbits].
  set (v := getVersion (len d1) e1) in *. rewrite <- Hv in Hbits.
  pose proof (getVersion_range (len d1) e1) as Hvr. fold v in Hvr.
  assert (len d1 <= CapacityTable v) as Hfit1.
  { destruct (getVersion_spec (len d1) e1) as (_ & _ & [H|[_ H]]); [exact H | lia]. }
  assert (len d2 <= CapacityTable v) as Hfit2.
  { rewrite Hv.
    destruct (getVersion_spec (len d2) e2) as (_ & _ & [H|[_ H]]); [exact H | lia]. }
  pose proof (for_all_versions _ countsOk_all v Hvr) as Hcnt.
  unfold countsOk in Hcnt.
  destruct (placePatterns enoughFuel v (initialStore v)) as [P|]; [|discriminate].
  destruct (placeData enoughFuel [] P) as [F0|]; [|discriminate].
  apply andb_true_iff in Hcnt as [Hcnt Hcount].
  apply andb_true_iff in Hcnt as [Hcnt _].
  apply andb_true_iff in Hcnt as [_ Hroom].
  apply Z.leb_le in Hroom. apply Z.ltb_lt in Hcount.
  pose proof (countBitsOf_pos v) as Hcb.
  assert (countBitsOf v = 8 * headerBytes v - 8) as Hhb.
  { unfold countBitsOf, headerBytes. destruct (v <? 10); lia. }
  assert (0 <= len d1 /\ 0 <= len d2) as [Hn1 Hn2] by (unfold len; lia).
  assert (len d1 = len d2) as Hlen.
  { apply (low_bits_inj (countBitsOf v)); try lia.
    intros i Hi.
    pose proof (Hbits (4 + (countBitsOf v - 1 - i)) ltac:(lia)) as Hb.
    unfold bitStream in Hb. rewrite !bitIs1_count in Hb by lia.
    replace (countBitsOf v - 1 - (countBitsOf v - 1 - i)) with i in Hb by lia.
    exact Hb. }
  apply list_eq. intros k.
  destruct (d1 !! k) as [b1|] eqn:Hk1.
  - pose proof (lookup_lt_Some _ _ _ Hk1) as Hlt.
    destruct (lookup_lt_is_Some_2 d2 k) as [b2 Hk2]; [unfold len in Hlen; lia|].
    rewrite Hk2. f_equal. apply byteVal_inj.
    apply (low_bits_inj 8); try apply byteVal_range; [lia|].
    intros i Hi.
    pose proof (Hbits (4 + countBitsOf v + 8 * Z.of_nat k + (7 - i))
                      ltac:(unfold len in *; lia)) as Hb.
    unfold bitStream in Hb.
    rewrite (bitIs1_data d1 v _ k b1) in Hb by (assumption || lia).
    rewrite (bitIs1_data d2 v _ k b2) in Hb by (assumption || lia).
    replace (7 - (7 - i)) with i in Hb by lia. exact Hb.
  - symmetry. apply lookup_ge_None. apply lookup_ge_None in Hk1.
    unfold len in Hlen. lia.
Qed.

Lemma dataBits_app (a b : list byte) :
  dataBits (a ++ b) = dataBits a ++ dataBits b.
Proof. unfold dataBits. apply flat_map_app. Qed.

(** Two payloads of the same length that share their first [n] bytes have
    streams that share their first 4 + countBits + 8n bits. *)
Lemma shared_prefix_bits (d1 d2 : list byte) (v : Z) (n : nat) (j : Z) :
  len d1 = len d2 -> take n d1 = take n d2 -> (n <= length d1)%nat ->
  j < 4 + countBitsOf v + 8 * Z.of_nat n ->
  bitIs1 (bitStream d1 v) j = bitIs1 (bitStream d2 v) j.
Proof.
  intros Hlen Htake Hn Hj.
  assert (forall d : list byte, (n <= length d)%nat ->
            bitStream d v
            = ([0; 1; 0; 0] ++ bitsOf (len d) (countBitsOf v - 1)
               ++ dataBits (take n d))
              ++ (dataBits (drop n d) ++ [0; 0; 0; 0]
                  ++ padBytes (Z.to_nat (getCapacity v
                                         - (len d + headerBytes v))) 236)
            /\ len ([0; 1; 0; 0] ++ bitsOf (len d) (countBitsOf v - 1)
                    ++ dataBits (take n d))
               = 4 + countBitsOf v + 8 * Z.of_nat n) as Hsplit.
  { intros d Hd. split.
    - unfold bitStream, streamHead.
      rewrite <- (take_drop n d) at 2. rewrite dataBits_app.
      rewrite <- !app_assoc. reflexivity.
    - pose proof (countBitsOf_pos v).
      rewrite !len_app, len_dataBits, len_bitsOf by lia.
      unfold len. rewrite length_take. simpl. lia. }
  destruct (Hsplit d1 Hn) as [-> Hl1].
  destruct (Hsplit d2 ltac:(unfold len in Hlen; lia)) as [-> Hl2].
  unfold bitIs1. rewrite Hlen, Htake in *.
  rewrite (at_index_app_l _ (dataBits (drop n d1) ++ _)) by lia.
  rewrite (at_index_app_l _ (dataBits (drop n d2) ++ _)) by lia.
  reflexivity.
Qed.

(** Payloads whose streams agree on every bit that is placed give the
    same outcome. *)
Lemma same_bits_same_grid (fuel : nat) (d1 d2 : list byte)
    (e1 e2 : ErrorCorrectionLevel) :
  (enoughFuel <= fuel)%nat ->
  getVersion (len d1) e1 = getVersion (len d2) e2 ->
  (forall j, 0 <= j < dataModules (getVersion (len d1) e1) ->
     bitIs1 (bitStream d1 (getVersion (len d1) e1)) j
     = bitIs1 (bitStream d2 (getVersion (len d2) e2)) j) ->
  generateQR fuel d1 e1 = generateQR fuel d2 e2.
Proof.
  intros Hfuel Hv Hbits.
  destruct (data_pass_run fuel d1 e1 Hfuel)
    as (P1 & vs1 & F1 & HP1 & Hrun1 & Hlog1 & Hgrid1 & _ & Hs1 & Hn1 & _ & Hval1).
  destruct (data_pass_run fuel d2 e2 Hfuel)
    as (P2 & vs2 & F2 & HP2 & Hrun2 & Hlog2 & Hgrid2 & _ & Hs2 & _ & _ & Hval2).
  cbv zeta in *. rewrite <- Hv in HP2, Hs2.
  assert (P2 = P1) as -> by congruence.
  assert (vs1 = vs2) as Hvs.
  { apply visits_eq; [congruence|].
    intros j [[r1 c1] b1] [[r2 c2] b2] Hw1 Hw2.
    destruct (Hval1 j _ _ _ Hw1) as [Hb1 _]. destruct (Hval2 j _ _ _ Hw2) as [Hb2 _].
    unfold visitBit. cbn [snd]. rewrite Hb1, Hb2. apply Hbits.
    pose proof (lookup_lt_Some _ _ _ Hw1) as Hlt.
    clear - Hlt Hn1. unfold len in *. lia. }
  rewrite Hrun1, Hrun2. f_equal.
  destruct F1 as [g1 l1], F2 as [g2 l2]. simpl in *.
  rewrite Hgrid1, Hgrid2, Hlog1, Hlog2, Hvs. reflexivity.
Qed.

(** ** The function patterns in the finished grid *)

Lemma finderOk_all : forallb finderOk versions = true.
Proof. vm_compute. reflexivity. Qed.

Lemma alignmentOk_all : forallb alignmentOk versions = true.
Proof. vm_compute. reflexivity. Qed.

Lemma forallb_elem_of {A : Type} (f : A -> bool) (l : list A) (x : A) :
  forallb f l = true -> x ∈ l -> f x = true.
Proof.
  intros Hall Hin. apply list_elem_of_In in Hin.
  rewrite forallb_forall in Hall. auto.
Qed.

(** What the patterns set is still there in the grid generateQR returns. *)
Lemma patterns_persist (fuel : nat) (data : list byte) (ecl : ErrorCorrectionLevel) :
  (enoughFuel <= fuel)%nat ->
  exists P F,
    placePatterns enoughFuel (getVersion (len data) ecl)
      (initialStore (getVersion (len data) ecl)) = Ok P /\
    generateQR fuel data ecl = Ok F /\
    forall r c b,
      getCell (grid P) r c = Some (Some b) ->
      getCell (grid F) r c = Some (Some b).
Proof.
  intros Hfuel.
  pose proof (getVersion_range (len data) ecl) as Hv.
  destruct (generateQR_run fuel data ecl Hfuel)
    as (P & bits & F & HP & _ & _ & Hrun & _ & _ & _ & Hext & _).
  destruct (patterns_facts _ Hv) as (P0 & F0 & HP0 & _).
  assert (P0 = P) as ->.
  { pose proof (placePatterns_mono _ _ _ _ _ Hfuel HP0). congruence. }
  exists P, F. split; [exact HP0|]. split; [exact Hrun|].
  apply (ext_keep _ _ Hext).
Qed.

(** X1.  In the grid generateQR returns, whatever the payload, each of the
    three finder stamps is whole: the module at offset (r, c) from its
    anchor, for r and c from -1 to 7 and inside the grid, is dark on the
    outer ring and in the 3 x 3 core and light elsewhere, border
    included. *)
Theorem finder_modules (fuel : nat) (data : list byte) (ecl : ErrorCorrectionLevel) :
  (enoughFuel <= fuel)%nat ->
  exists F,
    generateQR fuel data ecl = Ok F /\
    forall (a : Z * Z) (r c : Z),
      a ∈ finderAnchors (getVersion (len data) ecl * 4 + 17) ->
      -1 <= r <= 7 -> -1 <= c <= 7 ->
      inGrid (getVersion (len data) ecl * 4 + 17) (fst a + r) (snd a + c) = true ->
      getCell (grid F) (fst a + r) (snd a + c) = Some (Some (finderDark r c)).
Proof.
  intros Hfuel.
  pose proof (getVersion_range (len data) ecl) as Hv.
  destruct (patterns_persist fuel data ecl Hfuel) as (P & F & HP & Hrun & Hkeep).
  exists F. split; [exact Hrun|]. intros a r c Ha Hr Hc Hin.
  apply Hkeep, cellIs_true.
  pose proof (for_all_versions _ finderOk_all _ Hv) as Hok.
  unfold finderOk in Hok. rewrite HP in Hok.
  pose proof (forallb_elem_of _ _ _ Hok Ha) as H1. cbv beta in H1.
  pose proof (forallb_seqZ _ _ _ H1 r ltac:(lia)) as H2. cbv beta in H2.
  pose proof (forallb_seqZ _ _ _ H2 c ltac:(lia)) as H3. cbv beta in H3.
  rewrite Hin in H3. exact H3.
Qed.

Lemma finder_modules_witness :
  exists F,
    generateQR enoughFuel payload200 EclM = Ok F /\
    forall (a : Z * Z) (r c : Z),
      a ∈ finderAnchors (getVersion (len payload200) EclM * 4 + 17) ->
      -1 <= r <= 7 -> -1 <= c <= 7 ->
      inGrid (getVersion (len payload200) EclM * 4 + 17) (fst a + r) (snd a + c)
      = true ->
      getCell (grid F) (fst a + r) (snd a + c) = Some (Some (finderDark r c)).
Proof.
  apply (finder_modules enoughFuel payload200 EclM).
  unfold enoughFuel. lia.
Defined.

(** X2.  In the grid generateQR returns, whatever the payload, a whole
    5 x 5 alignment stamp (dark ring, light inside, dark centre) sits at
    every pair of alignment positions other than 6. *)
Theorem alignment_modules (fuel : nat) (data : list byte) (ecl : ErrorCorrectionLevel) :
  (enoughFuel <= fuel)%nat ->
  exists F,
    generateQR fuel data ecl = Ok F /\
    forall (p q r c : Z),
      p ∈ alignmentCentres (getVersion (len data) ecl) ->
      q ∈ alignmentCentres (getVersion (len data) ecl) ->
      -2 <= r <= 2 -> -2 <= c <= 2 ->
      getCell (grid F) (p + r) (q + c) = Some (Some (alignmentDark r c)).
Proof.
  intros Hfuel.
  pose proof (getVersion_range (len data) ecl) as Hv.
  destruct (patterns_persist fuel data ecl Hfuel) as (P & F & HP & Hrun & Hkeep).
  exists F. split; [exact Hrun|]. intros p q r c Hp Hq Hr Hc.
  apply Hkeep, cellIs_true.
  pose proof (for_all_versions _ alignmentOk_all _ Hv) as Hok.
  unfold alignmentOk in Hok. rewrite HP in Hok.
  pose proof (forallb_elem_of _ _ _ Hok Hp) as H1. cbv beta in H1.
  pose proof (forallb_elem_of _ _ _ H1 Hq) as H2. cbv beta in H2.
  pose proof (forallb_seqZ _ _ _ H2 r ltac:(lia)) as H3. cbv beta in H3.
  exact (forallb_seqZ _ _ _ H3 c ltac:(lia)).
Qed.

Lemma alignment_modules_witness :
  exists F,
    generateQR enoughFuel payload200 EclM = Ok F /\
    forall (p q r c : Z),
      p ∈ alignmentCentres (getVersion (len payload200) EclM) ->
      q ∈ alignmentCentres (getVersion (len payload200) EclM) ->
      -2 <= r <= 2 -> -2 <= c <= 2 ->
      getCell (grid F) (p + r) (q + c) = Some (Some (alignmentDark r c)).
Proof.
  apply (alignment_modules enoughFuel payload200 EclM).
  unfold enoughFuel. lia.
Defined.

(** ** The rendered image *)

Lemma elem_of_foldl_push {A B : Type} (p : A -> bool) (f : A -> B)
    (l : list A) :
  forall (acc : list B) (y : B),
    y ∈ foldl (fun acc a => if p a then acc ++ [f a] else acc) acc l <->
    y ∈ acc \/ exists a, a ∈ l /\ p a = true /\ y = f a.
Proof.
  induction l as [|a l IH]; intros acc y; simpl.
  - split; [auto|]. intros [H | (a & Ha & _)]; [exact H|].
    apply elem_of_nil in Ha. contradiction.
  - rewrite IH. destruct (p a) eqn:Hp.
    + rewrite elem_of_app, list_elem_of_singleton. split.
      * intros [[H | ->] | (b & Hb & Hpb & ->)]; [auto | |].
        -- right. exists a. split; [left|auto].
        -- right. exists b. split; [right; exact Hb | auto].
      * intros [H | (b & Hb & Hpb & ->)]; [auto|].
        apply elem_of_cons in Hb as [-> | Hb]; [auto|].
        right. exists b. auto.
    + split.
      * intros [H | (b & Hb & Hpb & ->)]; [auto|].
        right. exists b. split; [right; exact Hb | auto].
      * intros [H | (b & Hb & Hpb & ->)]; [auto|].
        apply elem_of_cons in Hb as [-> | Hb]; [congruence|].
        right. exists b. auto.
Qed.

Lemma elem_of_drawModules (m : matrix) (cellSize : Z) (rc : rect) :
  rc ∈ drawModules m cellSize <->
  exists row col,
    0 <= row < len m /\ 0 <= col < len m /\
    getCell m row col = Some (Some true) /\
    rc = Rect (col * cellSize) (row * cellSize) cellSize cellSize.
Proof.
  unfold drawModules.
  assert (forall rows acc,
    rc ∈ foldl (fun acc row =>
            foldl (fun acc col =>
              if truthy (getCell m row col)
              then acc ++ [Rect (col * cellSize) (row * cellSize) cellSize cellSize]
              else acc) acc (seqZ 0 (len m))) acc rows <->
    rc ∈ acc \/ exists row col, row ∈ rows /\ col ∈ seqZ 0 (len m) /\
                 truthy (getCell m row col) = true /\
                 rc = Rect (col * cellSize) (row * cellSize) cellSize cellSize)
    as Hrows.
  { induction rows as [|row rows IH]; intros acc; simpl.
    - split; [auto|]. intros [H | (r & c & Hr & _)]; [exact H|].
      apply elem_of_nil in Hr. contradiction.
    - rewrite IH.
      rewrite (elem_of_foldl_push (fun col => truthy (getCell m row col))
                 (fun col => Rect (col * cellSize) (row * cellSize) cellSize cellSize)).
      split.
      + intros [[H | (c & Hc & Hp & ->)] | (r & c & Hr & Hc & Hp & ->)]; [auto | |].
        * right. exists row, c. split; [left|auto].
        * right. exists r, c. split; [right; exact Hr | auto].
      + intros [H | (r & c & Hr & Hc & Hp & ->)]; [auto|].
        apply elem_of_cons in Hr as [-> | Hr].
        * left. right. exists c. auto.
        * right. exists r, c. auto. }
  rewrite Hrows. split.
  - intros [H | (row & col & Hr & Hc & Hp & ->)].
    + apply elem_of_nil in H. contradiction.
    + apply elem_of_seqZ in Hr, Hc. exists row, col.
      repeat split; try lia.
      unfold truthy in Hp. destruct (getCell m row col) as [[[|]|]|];
        try discriminate. reflexivity.
  - intros (row & col & Hr & Hc & Hp & ->). right. exists row, col.
    repeat split; try (apply elem_of_seqZ; lia).
    rewrite Hp. reflexivity.
Qed.

Lemma covers_module (cs row col x y : Z) :
  0 < cs ->
  (covers (Rect (col * cs) (row * cs) cs cs) x y <->
   x / cs = col /\ y / cs = row).
Proof.
  intros Hcs. unfold covers. simpl. split.
  - intros [Hx Hy]. split.
    + symmetry. apply (Z.div_unique x cs col (x - col * cs)); lia.
    + symmetry. apply (Z.div_unique y cs row (y - row * cs)); lia.
  - intros [<- <-].
    pose proof (Z.div_mod x cs ltac:(lia)). pose proof (Z.mod_pos_bound x cs Hcs).
    pose proof (Z.div_mod y cs ltac:(lia)). pose proof (Z.mod_pos_bound y cs Hcs).
    lia.
Qed.

Lemma render_run (fuel : nat) (text : list byte) (size : Z) :
  (enoughFuel <= fuel)%nat ->
  exists st,
    generateQR fuel text EclM = Ok st /\
    len (grid st) = getVersion (len text) EclM * 4 + 17 /\
    renderQRToDataURL fuel text size
    = Ok {| side := size / len (grid st) * len (grid st);
            black := drawModules (grid st) (size / len (grid st)) |}.
Proof.
  intros Hfuel.
  destruct (generateQR_grid fuel text EclM Hfuel) as (st & Hrun & [Hside _] & _).
  exists st. split; [exact Hrun|]. split; [exact Hside|].
  unfold renderQRToDataURL. rewrite Hrun. reflexivity.
Qed.

(** X9.  The image renderQRToDataURL draws is the grid magnified: inside
    the canvas, a pixel (x, y) is covered by a black square exactly when
    the module at row y / cellSize, column x / cellSize is dark. *)
Theorem render_pixels (fuel : nat) (text : list byte) (size : Z) :
  (enoughFuel <= fuel)%nat ->
  exists st cv,
    generateQR fuel text EclM = Ok st /\
    renderQRToDataURL fuel text size = Ok cv /\
    forall x y,
      0 <= x < side cv -> 0 <= y < side cv ->
      ((exists rc, rc ∈ black cv /\ covers rc x y) <->
       getCell (grid st) (y / (size / len (grid st))) (x / (size / len (grid st)))
       = Some (Some true)).
Proof.
  intros Hfuel.
  destruct (render_run fuel text size Hfuel) as (st & Hrun & Hside & Hrender).
  pose proof (getVersion_range (len text) EclM) as Hv.
  eexists st, _. split; [exact Hrun|]. split; [exact Hrender|].
  simpl. set (n := len (grid st)) in *. set (cs := size / n).
  intros x y Hx Hy.
  assert (0 < cs) as Hcs by nia.
  split.
  - intros (rc & Hin & Hcov).
    apply elem_of_drawModules in Hin as (row & col & Hr & Hc & Hdark & ->).
    apply covers_module in Hcov as [<- <-]; [|exact Hcs]. exact Hdark.
  - intros Hdark.
    exists (Rect (x / cs * cs) (y / cs * cs) cs cs). split.
    + apply elem_of_drawModules. exists (y / cs), (x / cs).
      split; [|split; [|split; [exact Hdark | reflexivity]]].
      * split; [apply Z.div_pos; lia | apply Z.div_lt_upper_bound; lia].
      * split; [apply Z.div_pos; lia | apply Z.div_lt_upper_bound; lia].
    + apply covers_module; [exact Hcs | split; reflexivity].
Qed.

Lemma render_pixels_witness :
  exists st cv,
    generateQR enoughFuel payload200 EclM = Ok st /\
    renderQRToDataURL enoughFuel payload200 280 = Ok cv /\
    forall x y,
      0 <= x < side cv -> 0 <= y < side cv ->
      ((exists rc, rc ∈ black cv /\ covers rc x y) <->
       getCell (grid st) (y / (280 / len (grid st))) (x / (280 / len (grid st)))
       = Some (Some true)).
Proof.
  apply (render_pixels enoughFuel payload200 280).
  unfold enoughFuel. lia.
Defined.

(** X10.  The canvas side is the largest multiple of the grid side N that
    fits the size asked for: it is more than size - N and at most size when
    N <= size, and 0, an empty image, when 0 <= size < N. *)
Theorem render_side (fuel : nat) (text : list byte) (size : Z) :
  (enoughFuel <= fuel)%nat ->
  exists cv,
    renderQRToDataURL fuel text size = Ok cv /\
    side cv = size / (getVersion (len text) EclM * 4 + 17)
              * (getVersion (len text) EclM * 4 + 17) /\
    (getVersion (len text) EclM * 4 + 17 <= size ->
     size - (getVersion (len text) EclM * 4 + 17) < side cv <= size) /\
    (0 <= size < getVersion (len text) EclM * 4 + 17 -> side cv = 0).
Proof.
  intros Hfuel.
  destruct (render_run fuel text size Hfuel) as (st & Hrun & Hside & Hrender).
  pose proof (getVersion_range (len text) EclM) as Hv.
  eexists. split; [exact Hrender|]. simpl. rewrite Hside.
  set (n := getVersion (len text) EclM * 4 + 17) in *.
  split; [reflexivity|].
  pose proof (Z.div_mod size n ltac:(lia)) as Hdm.
  pose proof (Z.mod_pos_bound size n ltac:(lia)) as Hmod.
  split.
  - intros Hfit. lia.
  - intros Hsmall. rewrite Z.div_small by lia. reflexivity.
Qed.

Lemma render_side_witness :
  exists cv,
    renderQRToDataURL enoughFuel payload200 280 = Ok cv /\
    side cv = 280 / (getVersion (len payload200) EclM * 4 + 17)
              * (getVersion (len payload200) EclM * 4 + 17) /\
    (getVersion (len payload200) EclM * 4 + 17 <= 280 ->
     280 - (getVersion (len payload200) EclM * 4 + 17) < side cv <= 280) /\
    (0 <= 280 < getVersion (len payload200) EclM * 4 + 17 -> side cv = 0).
Proof.
  apply (render_side enoughFuel payload200 280).
  unfold enoughFuel. lia.
Defined.

(** ** The size indicator *)

Lemma percentage_le_100 (currentBytes maxBytes : Z) :
  (percentage currentBytes maxBytes <= inject_Z 100)%Q.
Proof. unfold percentage. apply Q.le_min_r. Qed.

Lemma SizeIndicator_cases (currentBytes maxBytes : Z) :
  SizeIndicator currentBytes maxBytes <> danger /\
  (SizeIndicator currentBytes maxBytes = warning <->
   (inject_Z 75 < inject_Z currentBytes / inject_Z maxBytes * inject_Z 100)%Q).
Proof.
  unfold SizeIndicator.
  pose proof (percentage_le_100 currentBytes maxBytes) as Hle.
  destruct (Qlt_le_dec (inject_Z 100) (percentage currentBytes maxBytes))
    as [Hgt|_].
  { exfalso. exact (Qlt_not_le _ _ Hgt Hle). }
  split; [destruct (Qlt_le_dec _ _); discriminate|].
  unfold percentage in *.
  destruct (Qlt_le_dec (inject_Z 75)
              (Qmin (inject_Z currentBytes / inject_Z maxBytes * inject_Z 100)
                    (inject_Z 100))) as [Hw|Hs].
  - split; [|reflexivity]. intros _.
    apply Q.min_glb_lt_iff in Hw. tauto.
  - split; [discriminate|]. intros Hw. exfalso.
    apply (Qle_not_lt _ _ Hs). apply Q.min_glb_lt_iff. split; [exact Hw|].
    reflexivity.
Qed.

Lemma percent_of_2000 (currentBytes : Z) :
  (inject_Z 75 < inject_Z currentBytes / inject_Z 2000 * inject_Z 100)%Q <->
  1500 < currentBytes.
Proof.
  unfold Qlt, Qdiv, Qmult, Qinv, inject_Z. simpl. lia.
Qed.

(** ** Editing the list of items *)

Lemma mapFrom_lookup {A B : Type} (f : A -> nat -> B) (l : list A) :
  forall (idx k : nat),
    mapFrom f idx l !! k = (fun x => f x (idx + k)%nat) <$> l !! k.
Proof.
  induction l as [|x l IH]; intros idx k; simpl; [reflexivity|].
  destruct k as [|k]; simpl.
  - rewrite Nat.add_0_r. reflexivity.
  - rewrite IH. replace (S idx + k)%nat with (idx + S k)%nat by lia.
    reflexivity.
Qed.

Lemma mapFrom_length {A B : Type} (f : A -> nat -> B) (l : list A) :
  forall idx, length (mapFrom f idx l) = length l.
Proof. induction l as [|x l IH]; intros idx; simpl; [reflexivity|]. rewrite IH. reflexivity. Qed.

Lemma filterFrom_passed {A : Type} (i : nat) (l : list A) :
  forall idx, (i < idx)%nat ->
    filterFrom (fun _ idx => negb (Nat.eqb idx i)) idx l = l.
Proof.
  induction l as [|x l IH]; intros idx Hidx; simpl; [reflexivity|].
  destruct (Nat.eqb_spec idx i); [lia|]. simpl.
  rewrite IH by lia. reflexivity.
Qed.

Lemma filterFrom_lookup {A : Type} (i : nat) (l : list A) :
  forall (idx k : nat), (idx <= i)%nat ->
    filterFrom (fun _ idx => negb (Nat.eqb idx i)) idx l !! k
    = if decide (idx + k < i)%nat then l !! k else l !! S k.
Proof.
  induction l as [|x l IH]; intros idx k Hidx; simpl.
  - destruct (decide _); reflexivity.
  - destruct (Nat.eqb_spec idx i) as [->|Hne]; simpl.
    + rewrite filterFrom_passed by lia.
      destruct (decide _); [lia | reflexivity].
    + destruct k as [|k]; simpl.
      * destruct (decide _); [reflexivity | lia].
      * rewrite IH by lia.
        destruct (decide (S idx + k < i)%nat), (decide (idx + S k < i)%nat);
          try lia; reflexivity.
Qed.

(** ** The encoder as a whole *)

(** The order in which the data pass visits the modules of a version 1
    grid: up the two rightmost columns from the bottom-right corner, the
    right column first. *)
Example dataSites_version_1 :
  take 6 (dataSites 1) = [(20, 20); (20, 19); (19, 20); (19, 19); (18, 20); (18, 19)].
Proof. vm_compute. reflexivity. Qed.

(** The assignments of a call at version 1 and at version 9: 202 and 366 by
    the patterns, one for each of the 239 and 2443 modules left, and a mask
    flip for 119 and 1219 of these; 560 and 4028 in all. *)
Example assignment_counts :
  (patternModules 1, dataModules 1, len (flipped (dataSites 1))) = (202, 239, 119) /\
  (patternModules 9, dataModules 9, len (flipped (dataSites 9))) = (366, 2443, 1219).
Proof. vm_compute. auto. Qed.

(** X3.  The assignments of one call of generateQR, counted.  The function
    patterns make 192 + 2 (N - 16) + 25 k^2 of them, with k = floor(v / 7)
    + 1 alignment positions other than 6 (none at version 1).  The data pass
    makes one for each of the N * N - (that many) modules left, and a second
    one, the mask flip, for each of those whose row plus column is even.
    The assignments that find their module unset are N * N: one for each
    module of the grid. *)
Theorem module_write_counts (fuel : nat) (data : list byte)
    (ecl : ErrorCorrectionLevel) :
  (enoughFuel <= fuel)%nat ->
  exists P F,
    placePatterns enoughFuel (getVersion (len data) ecl)
      (initialStore (getVersion (len data) ecl)) = Ok P /\
    generateQR fuel data ecl = Ok F /\
    len (log P) = patternModules (getVersion (len data) ecl) /\
    len (log F) - len (log P)
    = dataModules (getVersion (len data) ecl)
      + len (flipped (dataSites (getVersion (len data) ecl))) /\
    len (firsts (log F)) = (getVersion (len data) ecl * 4 + 17) ^ 2.
Proof.
  intros Hfuel.
  destruct (data_pass_run fuel data ecl Hfuel)
    as (P & visits & F & HP & Hrun & Hlog & _ & HuP & Hsites & Hnew & HlP & _).
  cbv zeta in *. exists P, F.
  split; [exact HP|]. split; [exact Hrun|]. split; [exact HlP|].
  split.
  - rewrite Hlog, len_app, len_visitLog, Hsites, Hnew. lia.
  - rewrite Hlog, firsts_app, len_app, len_firsts_visitLog, Hnew.
    rewrite (firsts_unset _ HuP), HlP. unfold dataModules. lia.
Qed.

Lemma module_write_counts_witness :
  exists P F,
    placePatterns enoughFuel (getVersion (len payload200) EclM)
      (initialStore (getVersion (len payload200) EclM)) = Ok P /\
    generateQR enoughFuel payload200 EclM = Ok F /\
    len (log P) = patternModules (getVersion (len payload200) EclM) /\
    len (log F) - len (log P)
    = dataModules (getVersion (len payload200) EclM)
      + len (flipped (dataSites (getVersion (len payload200) EclM))) /\
    len (firsts (log F)) = (getVersion (len payload200) EclM * 4 + 17) ^ 2.
Proof.
  apply (module_write_counts enoughFuel payload200 EclM).
  unfold enoughFuel. lia.
Defined.

(** X4.  The bit stream fillData builds is the mode indicator 0100, the
    payload length on 8 bits (16 from version 10 on), the payload bytes
    from their high bit down, four zero bits, and then padding bytes 0xEC,
    0x11, 0xEC, ... for as many bytes as getCapacity leaves after the
    payload and its header. *)
Theorem bit_stream_contents (fuel : nat) (data : list byte)
    (ecl : ErrorCorrectionLevel) :
  (enoughFuel <= fuel)%nat ->
  buildBits fuel data (getVersion (len data) ecl)
  = Ok (bitStream data (getVersion (len data) ecl)).
Proof.
  intros Hfuel.
  pose proof (getVersion_range (len data) ecl) as Hv.
  destruct (enoughFuel_capacity fuel _ Hfuel Hv) as [Hf9 Hcap].
  apply buildBits_contents; assumption.
Qed.

Lemma bit_stream_contents_witness :
  buildBits enoughFuel payload200 (getVersion (len payload200) EclM)
  = Ok (bitStream payload200 (getVersion (len payload200) EclM)).
Proof.
  apply (bit_stream_contents enoughFuel payload200 EclM).
  unfold enoughFuel. lia.
Defined.

(** X5.  The data pass visits the free modules of a version in a fixed
    order, [dataSites], and in the finished grid the j-th of them holds
    bit j of the stream (light once the stream is used up), flipped when
    its row plus its column is even. *)
Theorem data_modules_hold_stream (fuel : nat) (data : list byte)
    (ecl : ErrorCorrectionLevel) :
  (enoughFuel <= fuel)%nat ->
  exists F,
    generateQR fuel data ecl = Ok F /\
    len (dataSites (getVersion (len data) ecl))
    = dataModules (getVersion (len data) ecl) /\
    forall (j : nat) (r c : Z),
      dataSites (getVersion (len data) ecl) !! j = Some (r, c) ->
      getCell (grid F) r c
      = Some (Some (masked (bitIs1 (bitStream data (getVersion (len data) ecl))
                                   (Z.of_nat j)) r c)).
Proof. apply dataSites_module. Qed.

Lemma data_modules_hold_stream_witness :
  exists F,
    generateQR enoughFuel payload200 EclM = Ok F /\
    len (dataSites (getVersion (len payload200) EclM))
    = dataModules (getVersion (len payload200) EclM) /\
    forall (j : nat) (r c : Z),
      dataSites (getVersion (len payload200) EclM) !! j = Some (r, c) ->
      getCell (grid F) r c
      = Some (Some (masked (bitIs1 (bitStream payload200
                                      (getVersion (len payload200) EclM))
                                   (Z.of_nat j)) r c)).
Proof.
  apply (data_modules_hold_stream enoughFuel payload200 EclM).
  unfold enoughFuel. lia.
Defined.

(** X6.  For a payload of at most CapacityTable[20] = 858 bytes the bit
    stream is no longer than the number of modules the data pass fills, so
    every bit of it is placed. *)
Theorem stream_fits_data_modules (data : list byte) (ecl : ErrorCorrectionLevel) :
  len data <= CapacityTable 20 ->
  len (bitStream data (getVersion (len data) ecl))
  <= dataModules (getVersion (len data) ecl).
Proof.
  intros HL.
  pose proof (getVersion_range (len data) ecl) as Hv.
  destruct (enoughFuel_capacity enoughFuel _ (Nat.le_refl _) Hv) as [Hf9 Hcap].
  destruct (buildBits_spec enoughFuel data _ Hf9 Hcap) as (bits & Hbits & Hlen).
  rewrite (buildBits_contents enoughFuel data _ Hf9 Hcap) in Hbits.
  injection Hbits as <-. rewrite Hlen.
  assert (len data <= CapacityTable (getVersion (len data) ecl)) as Hfit.
  { destruct (getVersion_spec (len data) ecl) as (_ & _ & [H|[_ H]]); [exact H | lia]. }
  pose proof (for_all_versions _ countsOk_all _ Hv) as Hcnt.
  unfold countsOk in Hcnt.
  destruct (placePatterns enoughFuel _ _) as [P|]; [|discriminate].
  destruct (placeData enoughFuel [] P) as [F0|]; [|discriminate].
  apply andb_true_iff in Hcnt as [Hcnt _].
  apply andb_true_iff in Hcnt as [Hcnt Hcap8].
  apply andb_true_iff in Hcnt as [_ Hroom].
  apply Z.leb_le in Hroom, Hcap8. lia.
Qed.

Lemma stream_fits_data_modules_witness :
  len (bitStream payload200 (getVersion (len payload200) EclM))
  <= dataModules (getVersion (len payload200) EclM).
Proof.
  apply (stream_fits_data_modules payload200 EclM).
  vm_compute. discriminate.
Defined.

(** X7.  Within the capacity table the grid determines the payload: two
    different payloads of at most 858 bytes never get the same grid. *)
Theorem distinct_payloads_distinct_grids (fuel : nat) (d1 d2 : list byte)
    (e1 e2 : ErrorCorrectionLevel) :
  (enoughFuel <= fuel)%nat ->
  len d1 <= CapacityTable 20 -> len d2 <= CapacityTable 20 ->
  d1 <> d2 ->
  exists F1 F2,
    generateQR fuel d1 e1 = Ok F1 /\ generateQR fuel d2 e2 = Ok F2 /\
    grid F1 <> grid F2.
Proof.
  intros Hfuel HL1 HL2 Hne.
  destruct (generateQR_grid fuel d1 e1 Hfuel) as (F1 & H1 & _).
  destruct (generateQR_grid fuel d2 e2 Hfuel) as (F2 & H2 & _).
  exists F1, F2. split; [exact H1|]. split; [exact H2|].
  intros Hgrid. apply Hne.
  exact (grid_determines_payload fuel d1 d2 e1 e2 F1 F2 Hfuel HL1 HL2 H1 H2 Hgrid).
Qed.

Lemma distinct_payloads_distinct_grids_witness :
  exists F1 F2,
    generateQR enoughFuel ["A"%byte] EclM = Ok F1 /\
    generateQR enoughFuel ["B"%byte] EclM = Ok F2 /\
    grid F1 <> grid F2.
Proof.
  apply (distinct_payloads_distinct_grids enoughFuel ["A"%byte] ["B"%byte] EclM EclM).
  - unfold enoughFuel. lia.
  - vm_compute. discriminate.
  - vm_compute. discriminate.
  - discriminate.
Defined.

(** X8.  Past 1102 bytes the payload no longer reaches the grid: two
    payloads of the same length that share their first 1102 bytes get the
    same outcome from generateQR, whatever follows.  canGenerateQR lets
    such payloads through up to 2000 bytes. *)
Theorem long_payload_tail_lost (fuel : nat) (d1 d2 : list byte)
    (ecl : ErrorCorrectionLevel) :
  (enoughFuel <= fuel)%nat ->
  len d1 = len d2 -> 1102 <= len d1 ->
  take 1102 d1 = take 1102 d2 ->
  generateQR fuel d1 ecl = generateQR fuel d2 ecl /\
  (forall items, 0 < items -> len d1 <= 2000 ->
     canGenerateQR items (len d1) = true).
Proof.
  intros Hfuel Hlen Hlong Htake. split.
  - assert (getVersion (len d1) ecl = 20) as Hv1
      by (apply getVersion_oversized; change (CapacityTable 20) with 858; lia).
    assert (getVersion (len d2) ecl = 20) as Hv2
      by (apply getVersion_oversized; change (CapacityTable 20) with 858; lia).
    apply same_bits_same_grid; [exact Hfuel | congruence |].
    rewrite Hv1, Hv2. intros j Hj.
    change (dataModules 20) with 8830 in Hj.
    apply (shared_prefix_bits d1 d2 20 1102); try assumption.
    + unfold len in Hlong. lia.
    + change (countBitsOf 20) with 16. lia.
  - intros items Hitems Hmax. unfold canGenerateQR.
    apply andb_true_iff. split; [apply Z.gtb_lt | apply Z.leb_le]; lia.
Qed.

Lemma long_payload_tail_lost_witness :
  generateQR enoughFuel longPayloadA EclM = generateQR enoughFuel longPayloadB EclM /\
  (forall items, 0 < items -> len longPayloadA <= 2000 ->
     canGenerateQR items (len longPayloadA) = true).
Proof.
  apply (long_payload_tail_lost enoughFuel longPayloadA longPayloadB EclM).
  - unfold enoughFuel. lia.
  - vm_compute. reflexivity.
  - vm_compute. discriminate.
  - vm_compute. reflexivity.
Defined.

(** X11.  SizeIndicator never reports 'danger': the percentage is capped
    at 100 before it is compared with 100.  Against the limit of 2000 bytes
    the application uses, it reports 'warning' exactly above 1500 bytes,
    however large the text. *)
Theorem SizeIndicator_never_danger (currentBytes maxBytes : Z) :
  SizeIndicator currentBytes maxBytes <> danger /\
  (SizeIndicator currentBytes 2000 = warning <-> 1500 < currentBytes).
Proof.
  split; [apply SizeIndicator_cases|].
  rewrite <- percent_of_2000. apply SizeIndicator_cases.
Qed.

Lemma filterFrom_length {A : Type} (i : nat) (l : list A) :
  forall idx, (idx <= i)%nat ->
    length (filterFrom (fun _ idx => negb (Nat.eqb idx i)) idx l)
    = if decide (i - idx < length l)%nat then (length l - 1)%nat else length l.
Proof.
  induction l as [|x l IH]; intros idx Hidx; cbn [filterFrom length].
  - case_decide; reflexivity.
  - destruct (Nat.eqb_spec idx i) as [->|Hne]; cbn [negb length].
    + rewrite filterFrom_passed by lia.
      case_decide; lia.
    + rewrite IH by lia.
      destruct (decide (i - S idx < length l)%nat),
               (decide (i - idx < S (length l))%nat); lia.
Qed.

(** X12.  onUpdate replaces the item at index i and nothing else: the list
    keeps its length, position i holds the new item if the list has a
    position i, every other position is as before. *)
Theorem onUpdate_replaces_one {A : Type} (i : nat) (data : A) (prev : list A) :
  length (onUpdate i data prev) = length prev /\
  forall k : nat,
    onUpdate i data prev !! k
    = if decide (k = i) then (fun _ => data) <$> prev !! k else prev !! k.
Proof.
  unfold onUpdate. split; [apply mapFrom_length|].
  intros k. rewrite mapFrom_lookup. simpl.
  destruct (Nat.eqb_spec k i) as [->|Hne].
  - rewrite decide_True by reflexivity. reflexivity.
  - rewrite decide_False by exact Hne.
    destruct (prev !! k); reflexivity.
Qed.

(** X13.  onDelete removes the item at index i and nothing else: the items
    before i keep their place, those after i move up by one, and the list
    is one shorter; an index past the end leaves the list as it is. *)
Theorem onDelete_removes_one {A : Type} (i : nat) (prev : list A) :
  length (onDelete i prev)
  = (if decide (i < length prev)%nat then (length prev - 1)%nat else length prev) /\
  forall k : nat,
    onDelete i prev !! k
    = if decide (k < i)%nat then prev !! k else prev !! S k.
Proof.
  unfold onDelete. split.
  - rewrite filterFrom_length by lia. rewrite Nat.sub_0_r. reflexivity.
  - intros k. rewrite filterFrom_lookup by lia. reflexivity.
Qed.

Lemma alignmentPosOk_all : forallb alignmentPosOk (seqZ 2 19) = true.
Proof. vm_compute. reflexivity. Qed.

Lemma spacedb_spaced (l : list Z) :
  spacedb l = true ->
  forall (i : nat) (p q : Z), l !! i = Some p -> l !! S i = Some q -> p + 16 <= q.
Proof.
  induction l as [|a l IH]; intros Hs i p q Hp Hq; [discriminate|].
  destruct l as [|b l]; [discriminate|].
  cbn [spacedb] in Hs. apply andb_true_iff in Hs as [Hab Hrest].
  destruct i as [|i].
  - simpl in Hp, Hq. injection Hp as <-. injection Hq as <-. lia.
  - exact (IH Hrest i p q Hp Hq).
Qed.

(** X15.  For every version from 2 to 20 getAlignmentPos returns
    floor(v / 7) + 1 centres followed by 6; the centres start at 18 or
    more, increase by at least 16, and end at 4 v + 10, seven modules from
    the edge, so that the 5 x 5 stamps on them lie inside the grid, clear
    of each other and of the finder and timing patterns. *)
Theorem getAlignmentPos_centres (fuel : nat) (v : Z) :
  (enoughFuel <= fuel)%nat -> 2 <= v <= 20 ->
  getAlignmentPos fuel v = Ok (alignmentCentres v ++ [6]) /\
  len (alignmentCentres v) = v / 7 + 1 /\
  last (alignmentCentres v) = Some (4 * v + 10) /\
  (forall p, p ∈ alignmentCentres v -> 18 <= p) /\
  (forall (i : nat) (p q : Z),
      alignmentCentres v !! i = Some p -> alignmentCentres v !! S i = Some q ->
      p + 16 <= q).
Proof.
  intros Hfuel Hv.
  pose proof (forallb_seqZ _ _ _ alignmentPosOk_all v ltac:(lia)) as Hok.
  unfold alignmentPosOk in Hok.
  destruct (getAlignmentPos enoughFuel v) as [pos|] eqn:Hpos; [|discriminate].
  apply andb_true_iff in Hok as [Hok Hsp].
  apply andb_true_iff in Hok as [Hok Hmin].
  apply andb_true_iff in Hok as [Hok Hlast].
  apply andb_true_iff in Hok as [Heq Hlen].
  apply bool_decide_eq_true in Heq, Hlast. subst pos.
  split.
  - revert Hpos. unfold getAlignmentPos. destruct (v =? 1); [congruence|].
    apply alignLoop_mono, Hfuel.
  - split; [lia|]. split; [exact Hlast|]. split.
    + intros p Hp. pose proof (forallb_elem_of _ _ _ Hmin Hp). simpl in *. lia.
    + apply spacedb_spaced, Hsp.
Qed.

Lemma getAlignmentPos_centres_witness :
  getAlignmentPos enoughFuel 9 = Ok (alignmentCentres 9 ++ [6]) /\
  len (alignmentCentres 9) = 9 / 7 + 1 /\
  last (alignmentCentres 9) = Some (4 * 9 + 10) /\
  (forall p, p ∈ alignmentCentres 9 -> 18 <= p) /\
  (forall (i : nat) (p q : Z),
      alignmentCentres 9 !! i = Some p -> alignmentCentres 9 !! S i = Some q ->
      p + 16 <= q).
Proof.
  apply (getAlignmentPos_centres enoughFuel 9).
  - unfold enoughFuel. lia.
  - lia.
Defined.

(** ** The guard of processTranscription *)

Lemma trim_nil : trim [] = [].
Proof. reflexivity. Qed.

(** X14.  A click on "Process with AI" is refused with 'Please record or
    enter some text first.' exactly when the button is disabled for lack of
    text or the transcription is a non-empty string of white space.  In the
    second case the button can be enabled, by typed text, which the guard
    never looks at: it tests [transcription || manualInput]. *)
Theorem processTranscription_guard (transcription manualInput : list Z) :
  processTranscription transcription manualInput = NothingToProcess <->
  processDisabled false transcription manualInput = true \/
  (transcription <> [] /\ trim transcription = []).
Proof.
  unfold processDisabled, processTranscription. simpl.
  destruct transcription as [|c t]; simpl.
  - rewrite trim_nil. simpl.
    destruct (trim manualInput) eqn:Hm; simpl.
    + split; [auto|reflexivity].
    + split; [discriminate|]. intros [H | [H _]]; [discriminate | congruence].
  - destruct (trim (c :: t)) eqn:Ht; simpl.
    + split; [|reflexivity]. intros _. right. split; [discriminate | reflexivity].
    + split; [discriminate|]. intros [H | [_ H]]; discriminate.
Qed.

(** A transcription of one space next to typed text: the button is
    enabled, the click is refused. *)
Example processTranscription_blank_transcription :
  processDisabled false [32] [119; 97; 108; 108; 101; 116] = false /\
  processTranscription [32] [119; 97; 108; 108; 101; 116] = NothingToProcess.
Proof. vm_compute. split; reflexivity. Qed.
